(** * JSON-Schema-Builder: the field tree and its derivation

    A shallow embedding of [src/json-schema-builder/src/App.tsx]: the
    [Field] record, [generateSchema] with the JavaScript object it
    fills, the four edit operations of [FieldEditor] (on values and on
    a store of shared objects), and the text of the "JSON Output" tab. *)

From Stdlib Require Import ZArith NArith Ascii String.
From stdpp Require Import base option list sorting strings pretty.

#[local] Set Warnings "-clear-no-such-hyp".

Local Open Scope string_scope.
Local Open Scope list_scope.

(** ** Data model (App.tsx, lines 13-19)

    A key is a JavaScript string, held here as the bytes of its UTF-8
    encoding: two keys are equal when their bytes are, and the
    characters the code and the language single out (the digits of an
    array index, the letters of [__proto__], line feed and carriage
    return) are single bytes that occur in no other character. *)

Inductive FieldType := TString | TNumber | TNested.

#[global] Instance FieldType_eq_dec : EqDecision FieldType.
Proof. solve_decision. Defined.

#[warnings="-register-all"]
Inductive Field := mkField {
  key : string;
  type : FieldType;
  children : list Field
}.

Definition defaultField : Field := mkField "" TString [].

(** ** JavaScript values and ordinary objects

    [generateSchema] only builds strings, numbers and plain objects.  An
    object is its own properties in creation order, together with its
    [[Prototype]] when that is no longer [Object.prototype]. *)

#[warnings="-register-all"]
Inductive object := Obj (own : list (string * value)) (proto : option object)
with value :=
  | VString (s : string)
  | VNumber (n : Z)
  | VObject (o : object).

Definition own_props (o : object) : list (string * value) :=
  match o with Obj ps _ => ps end.

Definition prototype (o : object) : option object :=
  match o with Obj _ p => p end.

(** [{}] *)
Definition empty_object : object := Obj [] None.

(** Overwrite the value of an existing own property in place, or append
    a new property. *)
Fixpoint put (k : string) (v : value) (ps : list (string * value))
  : list (string * value) :=
  match ps with
  | [] => [(k, v)]
  | (k', v') :: ps' =>
      if decide (k' = k) then (k, v) :: ps' else (k', v') :: put k v ps'
  end.

Fixpoint assoc (k : string) (ps : list (string * value)) : option value :=
  match ps with
  | [] => None
  | (k', v) :: ps' => if decide (k' = k) then Some v else assoc k ps'
  end.

(** [o[k] = v] on an object whose properties were all created by such
    assignments.  Every name but ["__proto__"] ends as a writable own
    data property.  ["__proto__"] is found on [Object.prototype] as an
    accessor, whose setter replaces the prototype when [v] is an object
    and ignores every other value (ECMA-262, set Object.prototype.__proto__). *)
Definition set_property (o : object) (k : string) (v : value) : object :=
  if decide (k = "__proto__") then
    match v with
    | VObject p => Obj (own_props o) (Some p)
    | _ => o
    end
  else Obj (put k v (own_props o)) (prototype o).

Definition get_own (o : object) (k : string) : option value :=
  assoc k (own_props o).

(** ** Derivation (App.tsx, lines 21-45) *)

Definition getDefaultValue (ty : FieldType) : value :=
  match ty with
  | TString => VString ""
  | TNumber => VNumber 0
  | TNested => VObject empty_object
  end.

(** The body of the [forEach] callback: [value_of] is the value the
    node is assigned when its key is not falsy. *)
Definition assign_field (value_of : Field -> value) (schema : object) (f : Field)
  : object :=
  if decide (key f = "") then schema
  else set_property schema (key f) (value_of f).

(** The recursion of [generateSchema] descends through [children], so
    it is tied at the node: [field_value f] is the right-hand side of
    the assignment to [schema[key]]. *)
Fixpoint field_value (f : Field) : value :=
  match type f with
  | TNested =>
      VObject (fold_left (assign_field field_value) (children f) empty_object)
  | ty => getDefaultValue ty
  end.

Definition generateSchema (fields : list Field) : object :=
  fold_left (assign_field field_value) fields empty_object.

(** The callback as the source writes it, with the recursive call in
    the [Nested] branch. *)
Definition forEach_callback (schema : object) (f : Field) : object :=
  if decide (key f = "") then schema
  else match type f with
       | TNested =>
           set_property schema (key f) (VObject (generateSchema (children f)))
       | ty => set_property schema (key f) (getDefaultValue ty)
       end.

(** The loop started from an object already filled. *)
Definition derive_from (schema : object) (fields : list Field) : object :=
  fold_left (assign_field field_value) fields schema.

(** The keys that reach the object as own properties. *)
Definition stored (k : string) : Prop := k <> "" /\ k <> "__proto__".

#[local] Instance stored_dec k : Decision (stored k).
Proof. unfold stored. apply _. Defined.

(** ** Property enumeration order

    [OrdinaryOwnPropertyKeys]: the keys that are array indices (the
    canonical decimal numerals below 2^32 - 1) come first, in ascending
    numeric order; every other string key follows in creation order. *)

Definition digit_of (a : ascii) : option N :=
  let n := N_of_ascii a in
  if ((48 <=? n) && (n <=? 57))%N then Some (n - 48)%N else None.

Fixpoint digits_value (acc : N) (s : string) : option N :=
  match s with
  | EmptyString => Some acc
  | String a s' =>
      match digit_of a with
      | Some d => digits_value (acc * 10 + d)%N s'
      | None => None
      end
  end.

Definition array_index (k : string) : option N :=
  match k with
  | EmptyString => None
  | String "0"%char EmptyString => Some 0%N
  | String "0"%char _ => None
  | _ =>
      match digits_value 0 k with
      | Some n => if (n <? 2 ^ 32 - 1)%N then Some n else None
      | None => None
      end
  end.

(** The weight of the digit before the digits [s]. *)
Definition scale (s : string) : N := (10 ^ N.of_nat (String.length s))%N.

Definition is_index (k : string) : bool :=
  match array_index k with Some _ => true | None => false end.

Section Enumeration.
Context {A : Type}.

Fixpoint insert_by_index (n : N) (e : string * A) (l : list (N * (string * A)))
  : list (N * (string * A)) :=
  match l with
  | [] => [(n, e)]
  | (m, e') :: l' =>
      if (n <=? m)%N then (n, e) :: l else (m, e') :: insert_by_index n e l'
  end.

Fixpoint sort_by_index (l : list (N * (string * A))) : list (N * (string * A)) :=
  match l with
  | [] => []
  | (n, e) :: l' => insert_by_index n e (sort_by_index l')
  end.

Definition index_entries (ps : list (string * A)) : list (N * (string * A)) :=
  omap (fun e => match array_index (fst e) with
                 | Some n => Some (n, e)
                 | None => None
                 end) ps.

Definition named_entries (ps : list (string * A)) : list (string * A) :=
  filter (fun e => is_index (fst e) = false) ps.

Definition enumerate (ps : list (string * A)) : list (string * A) :=
  map snd (sort_by_index (index_entries ps)) ++ named_entries ps.
End Enumeration.

(** [Object.keys(o)], the order [JSON.stringify] walks the object in. *)
Definition ownKeys (o : object) : list string :=
  map fst (enumerate (own_props o)).

(** ** Edit operations on values (App.tsx, lines 54-71)

    Indices are JavaScript numbers; the editor only passes the integer
    positions of [fields.map], so an index is a [Z]. *)

Definition in_range {A} (index : Z) (l : list A) : option nat :=
  if decide (0 <= index < Z.of_nat (length l))%Z then Some (Z.to_nat index)
  else None.

(** [Partial<Field>]: each property present or absent. *)
Record PartialField := mkPartial {
  pkey : option string;
  ptype : option FieldType;
  pchildren : option (list Field)
}.

(** [{ ...f, ...updated }] *)
Definition merge (f : Field) (updated : PartialField) : Field :=
  mkField (default (key f) (pkey updated))
          (default (type f) (ptype updated))
          (default (children f) (pchildren updated)).

(** [updateField] hands [setFields] a copy of the array after
    [newFields[index] = { ...newFields[index], ...updated }].  Inside
    the array the slot is overwritten with the merged object.  Outside
    it nothing is thrown: [newFields[index]] is [undefined] and the
    object written holds the properties of [updated] only.  A negative
    index, or one from 2^32 - 1 on, is no array index: the assignment
    makes a property beside the elements, which stay as they were.  The
    index [fields.length] appends the object, a [Field] when [updated]
    has all three properties.  [None] stands for the arrays that are no
    [Field[]]: an object without one of the properties at the end, or
    empty slots before it when the index lies further out. *)
Definition updateField (fields : list Field) (index : Z) (updated : PartialField)
  : option (list Field) :=
  match in_range index fields with
  | Some i =>
      match fields !! i with
      | Some f => Some (<[i := merge f updated]> fields)
      | None => None
      end
  | None =>
      if decide (index < 0 \/ 2 ^ 32 - 1 <= index)%Z then Some fields
      else if decide (index = Z.of_nat (length fields)) then
        match pkey updated, ptype updated, pchildren updated with
        | Some k, Some ty, Some ch => Some (fields ++ [mkField k ty ch])
        | _, _, _ => None
        end
      else None
  end.

Definition addField (fields : list Field) : list Field :=
  fields ++ [defaultField].

(** [fields.filter((_, i) => i !== index)] *)
Fixpoint filter_from {A} (i : nat) (index : Z) (l : list A) : list A :=
  match l with
  | [] => []
  | x :: l' =>
      if decide (Z.of_nat i <> index) then x :: filter_from (S i) index l'
      else filter_from (S i) index l'
  end.

Definition removeField (fields : list Field) (index : Z) : list Field :=
  filter_from 0 index fields.

(** The array [updateChildren] hands to [setFields].  [None] is the
    [TypeError] of [undefined.children = ...] outside the array.  What
    the assignment does to the caller's array is in [Store] below. *)
Definition updateChildren (fields : list Field) (index : Z) (newChildren : list Field)
  : option (list Field) :=
  match in_range index fields with
  | Some i =>
      match fields !! i with
      | Some f => Some (<[i := mkField (key f) (type f) newChildren]> fields)
      | None => None
      end
  | None => None
  end.

(** The last node of a level that carries the key [k]. *)
Definition last_with_key (k : string) (fields : list Field) : option Field :=
  last (filter (fun f => key f = k) fields).

(** A list of keys with every repetition after the first removed. *)
Fixpoint first_occurrences (l : list string) : list string :=
  match l with
  | [] => []
  | k :: l' => k :: filter (fun x => x <> k) (first_occurrences l')
  end.

(** The two runs of [ownKeys]. *)
Definition index_keys (o : object) : list string :=
  map (fun e => fst (snd e)) (sort_by_index (index_entries (own_props o))).

Definition named_keys (o : object) : list string :=
  map fst (named_entries (own_props o)).

(** ** Nodes below the top level

    A path is the sequence of positions from the top level down to a
    node. *)

Fixpoint node_at (path : list nat) (fields : list Field) : option Field :=
  match path with
  | [] => None
  | i :: rest =>
      match fields !! i with
      | None => None
      | Some f =>
          match rest with
          | [] => Some f
          | _ => node_at rest (children f)
          end
      end
  end.

(** The tree with the [children] of the node at [path] replaced. *)
Fixpoint replace_children (path : list nat) (c : list Field) (fields : list Field)
  : list Field :=
  match path with
  | [] => fields
  | i :: rest =>
      match fields !! i with
      | None => fields
      | Some f =>
          <[i := mkField (key f) (type f)
                   match rest with
                   | [] => c
                   | _ => replace_children rest c (children f)
                   end]> fields
      end
  end.

(** Two nodes the loop cannot tell apart. *)
Definition same_entry (f g : Field) : Prop :=
  key f = key g /\ field_value f = field_value g.

(** Keys that are neither empty, nor array indices, nor ["__proto__"]. *)
Definition named (k : string) : Prop :=
  k <> "" /\ is_index k = false /\ k <> "__proto__".

#[local] Instance named_dec k : Decision (named k).
Proof. unfold named. apply _. Defined.

(** ** Edit operations on shared objects

    React state holds references: an array of references to [Field]
    objects, each holding a reference to its [children] array.  The
    store keeps the objects and the arrays ever created; a reference is
    a position in it.  Every operation returns the store it leaves and
    the array it hands to [setFields]. *)

Module Store.

Record node := mkNode {
  nkey : string;
  ntype : FieldType;
  nchildren : nat
}.

Record store := mkStore {
  nodes : list node;
  arrays : list (list nat)
}.

(** [Partial<Field>] with [children] by reference. *)
Record update := mkUpdate {
  ukey : option string;
  utype : option FieldType;
  uchildren : option nat
}.

Definition alloc_array (st : store) (refs : list nat) : store * nat :=
  (mkStore (nodes st) (arrays st ++ [refs]), length (arrays st)).

Definition alloc_node (st : store) (n : node) : store * nat :=
  (mkStore (nodes st ++ [n]) (arrays st), length (nodes st)).

(** [a[i] = r] inside the array [a] *)
Definition write_slot (st : store) (a i r : nat) : store :=
  mkStore (nodes st) (alter (fun refs => <[i := r]> refs) a (arrays st)).

(** [r.children = c] *)
Definition write_children (st : store) (r c : nat) : store :=
  mkStore (alter (fun n => mkNode (nkey n) (ntype n) c) r (nodes st))
          (arrays st).

(** [{ ...n, ...updated }], a new object, not yet stored *)
Definition merge (n : node) (updated : update) : node :=
  mkNode (default (nkey n) (ukey updated))
         (default (ntype n) (utype updated))
         (default (nchildren n) (uchildren updated)).

(** [a[a.length] = r] *)
Definition push_slot (st : store) (a r : nat) : store :=
  mkStore (nodes st) (alter (fun refs => refs ++ [r]) a (arrays st)).

(** As [updateField] on values: outside the array a new array is handed
    on all the same, with the elements as they were for an index that
    is no array index, with a new node at the end for the index
    [fields.length] and an update of all three properties.  The store
    holds fields only: [None] stands for the arrays that are no
    [Field[]], and an object written beside the elements is not kept. *)
Definition updateField (st : store) (fields : nat) (index : Z) (updated : update)
  : option (store * nat) :=
  refs ← arrays st !! fields;
  let '(st1, newFields) := alloc_array st refs in
  match in_range index refs with
  | Some i =>
      r ← refs !! i;
      n ← nodes st1 !! r;
      let '(st2, r') := alloc_node st1 (merge n updated) in
      Some (write_slot st2 newFields i r', newFields)
  | None =>
      if decide (index < 0 \/ 2 ^ 32 - 1 <= index)%Z then Some (st1, newFields)
      else if decide (index = Z.of_nat (length refs)) then
        match ukey updated, utype updated, uchildren updated with
        | Some k, Some ty, Some c =>
            let '(st2, r') := alloc_node st1 (mkNode k ty c) in
            Some (push_slot st2 newFields r', newFields)
        | _, _, _ => None
        end
      else None
  end.

Definition addField (st : store) (fields : nat) : option (store * nat) :=
  refs ← arrays st !! fields;
  let '(st1, c) := alloc_array st [] in
  let '(st2, r) := alloc_node st1 (mkNode "" TString c) in
  Some (alloc_array st2 (refs ++ [r])).

Definition removeField (st : store) (fields : nat) (index : Z)
  : option (store * nat) :=
  refs ← arrays st !! fields;
  Some (alloc_array st (filter_from 0 index refs)).

(** [newFields] is a new array over the same objects; the assignment
    to [children] goes to the object both arrays refer to. *)
Definition updateChildren (st : store) (fields : nat) (index : Z) (children : nat)
  : option (store * nat) :=
  refs ← arrays st !! fields;
  let '(st1, newFields) := alloc_array st refs in
  i ← in_range index refs;
  r ← refs !! i;
  _ ← nodes st1 !! r;
  Some (write_children st1 r children, newFields).

(** The tree an array stands for, followed to the given depth. *)
Fixpoint read (depth : nat) (st : store) (a : nat) : option (list Field) :=
  match depth with
  | 0 => None
  | S depth' =>
      refs ← arrays st !! a;
      mapM (fun r =>
              n ← nodes st !! r;
              ch ← read depth' st (nchildren n);
              Some (mkField (nkey n) (ntype n) ch)) refs
  end.

(** The node an object stands for, with its children followed to the
    given depth. *)
Definition read_node (depth : nat) (st : store) (r : nat) : option Field :=
  n ← nodes st !! r;
  ch ← read depth st (nchildren n);
  Some (mkField (nkey n) (ntype n) ch).

(** The partial record an update stands for. *)
Definition read_update (depth : nat) (st : store) (u : update)
  : option PartialField :=
  match uchildren u with
  | None => Some (mkPartial (ukey u) (utype u) None)
  | Some c => ch ← read depth st c; Some (mkPartial (ukey u) (utype u) (Some ch))
  end.

(** The objects met while an array is read to the given depth, each
    as often as it is met. *)
Fixpoint visited (depth : nat) (st : store) (a : nat) : list nat :=
  match depth with
  | 0 => []
  | S depth' =>
      match arrays st !! a with
      | None => []
      | Some refs =>
          refs ++ (refs ≫= fun r =>
                     match nodes st !! r with
                     | None => []
                     | Some n => visited depth' st (nchildren n)
                     end)
      end
  end.

(** Nothing created so far has been changed. *)
Definition extends (st st' : store) : Prop :=
  nodes st `prefix_of` nodes st' /\ arrays st `prefix_of` arrays st'.

End Store.

(** ** The "JSON Output" tab (App.tsx, lines 160-161 and 217-227)

    [JSON.stringify(schema, null, 2)] on the values [generateSchema]
    builds, after ECMA-262 (SerializeJSONProperty, SerializeJSONObject,
    QuoteJSONString).  A string is held as the bytes of its UTF-8
    encoding.  [JSON.stringify] escapes the quotation mark, the
    backslash and the characters below U+0020, which are single bytes,
    and copies every other character, hence every byte from 128 on.
    A string with an unpaired surrogate has no UTF-8 encoding and is
    not among the keys of this model; [JSON.stringify] would write
    such a code unit as a [\u] escape. *)

Definition LF : string := String "010"%char EmptyString.
Definition dquote : ascii := "034"%char.

Fixpoint spaces (n : nat) : string :=
  match n with
  | 0 => EmptyString
  | S n' => String " "%char (spaces n')
  end.

Definition hex_digit (n : N) : ascii :=
  ascii_of_N (if (n <? 10)%N then 48 + n else 87 + n)%N.

Definition escape_char (a : ascii) : string :=
  let n := N_of_ascii a in
  if (n =? 8)%N then "\b"
  else if (n =? 9)%N then "\t"
  else if (n =? 10)%N then "\n"
  else if (n =? 12)%N then "\f"
  else if (n =? 13)%N then "\r"
  else if (n =? 34)%N then String "\"%char (String dquote EmptyString)
  else if (n =? 92)%N then "\\"
  else if (n <? 32)%N then
    ("\u00" ++ String (hex_digit (n / 16)) (String (hex_digit (n mod 16)) EmptyString))%string
  else String a EmptyString.

Fixpoint escape (s : string) : string :=
  match s with
  | EmptyString => EmptyString
  | String a s' => (escape_char a ++ escape s')%string
  end.

Definition QuoteJSONString (s : string) : string :=
  String dquote (escape s ++ String dquote EmptyString)%string.

(** One member of an object: the quoted key, a colon, a space when
    there is a gap, and the serialized value. *)
Definition member (gap : string) (e : string * string) : string :=
  (QuoteJSONString (fst e) ++ ":"
   ++ (if decide (gap = "") then "" else " ") ++ snd e)%string.

(** The braces around the members, which are written one per line when
    there is a gap. *)
Definition braces (gap stepback indent : string) (partial : list string) : string :=
  match partial with
  | [] => "{}"
  | _ =>
      if decide (gap = "") then ("{" ++ String.concat "," partial ++ "}")%string
      else ("{" ++ LF ++ indent
            ++ String.concat ("," ++ LF ++ indent) partial
            ++ LF ++ stepback ++ "}")%string
  end.

(** The property values are serialized where they stand and the
    members then taken in enumeration order. *)
Fixpoint serialize (gap indent : string) (v : value) : string :=
  match v with
  | VString s => QuoteJSONString s
  | VNumber n => pretty n
  | VObject o =>
      let stepback := indent in
      let indent := (indent ++ gap)%string in
      braces gap stepback indent
        (map (member gap)
           (enumerate
              (map (fun e => (fst e, serialize gap indent (snd e))) (own_props o))))
  end.

(** [JSON.stringify(v, null, space)] for a number [space]: the gap is
    that many spaces, ten at most. *)
Definition JSON_stringify (v : value) (space : nat) : string :=
  serialize (spaces (Nat.min 10 space)) "" v.

Inductive view := Placeholder | Code (text : string).

Definition hasFields (fields : list Field) : bool :=
  (0 <? List.length fields)%nat.

Definition jsonOutput (fields : list Field) : view :=
  let schema := generateSchema fields in
  if hasFields fields then Code (JSON_stringify (VObject schema) 2)
  else Placeholder.

(** ** Indented JSON, line by line

    The layout the output is to have: a text is a first line and the
    lines after it, each at a nesting depth and written after twice as
    many spaces. *)










(** ** What the editor shows (App.tsx, lines 73-156)

    The part of the markup of [FieldEditor] that depends on its props:
    one card per field, in order, with the text of its input, the
    choice and the colour of its select, and the nested editor of a
    [Nested] field.  The buttons and the decoration are the same for
    every tree. *)

Definition getTypeColor (ty : FieldType) : string :=
  match ty with
  | TString => "bg-amber-50 text-amber-800 border-amber-300"
  | TNumber => "bg-sky-50 text-sky-800 border-sky-300"
  | TNested => "bg-rose-50 text-rose-800 border-rose-300"
  end.

#[warnings="-register-all"]
Inductive Card := mkCard {
  card_key : nat;
  card_class : string;
  input_value : string;
  select_value : FieldType;
  select_class : string;
  nested_editor : option (list Card)
}.

Definition cardClassName (depth : nat) : string :=
  ("group hover:shadow-lg transition-all duration-300 border-0 shadow-sm "
   ++ (if (0 <? depth)%nat then "bg-gradient-to-r from-gray-50 to-white"
       else "bg-white"))%string.

Definition selectClassName (ty : FieldType) : string :=
  ("h-12 px-4 pr-10 text-base font-semibold rounded-xl border-2 cursor-pointer transition-all appearance-none "
   ++ getTypeColor ty
   ++ " hover:shadow-md focus:outline-none focus:ring-2 focus:ring-slate-500 focus:ring-offset-2")%string.

(** The card of the field at position [index] of an editor at [depth]. *)
Fixpoint card (depth index : nat) (field : Field) : Card :=
  mkCard index (cardClassName depth) (key field) (type field)
    (selectClassName (type field))
    match type field with
    | TNested =>
        Some ((fix cards (i : nat) (l : list Field) : list Card :=
                 match l with
                 | [] => []
                 | c :: l' => card (S depth) i c :: cards (S i) l'
                 end) 0 (children field))
    | _ => None
    end.

(** [fields.map((field, index) => <Card ...>)] from position [i] on. *)
Fixpoint cards_from (depth i : nat) (fields : list Field) : list Card :=
  match fields with
  | [] => []
  | f :: fields' => card depth i f :: cards_from depth (S i) fields'
  end.

Definition FieldEditor (depth : nat) (fields : list Field) : list Card :=
  cards_from depth 0 fields.

(** ** What the controls do (App.tsx, lines 95-138 and 146-148)

    The controls of one editor, and the outcome of using one in the
    editor reached from the top through the nested editors at [path]:
    entering a text in the name field of a card, choosing a type in its
    select, its remove button, and the add button of the editor.
    [setFields] is the prop of the editor: the state setter at the top,
    [(newChildren) => updateChildren(index, newChildren)] of the parent
    below it. *)

(** The value of the name field, an [<input>] of type text: whatever
    is entered, the line feeds and carriage returns are stripped from
    it before the change handler reads [e.target.value]. *)
Fixpoint strip_newlines (s : string) : string :=
  match s with
  | EmptyString => EmptyString
  | String c s' =>
      if decide (c = "010"%char \/ c = "013"%char) then strip_newlines s'
      else String c (strip_newlines s')
  end.

Inductive action :=
  | ChangeKey (index : nat) (text : string)
  | ChangeType (index : nat) (ty : FieldType)
  | ClickRemove (index : nat)
  | ClickAdd.

Inductive outcome :=
  | NoControl
  | Fails
  | SetState (fields : list Field).

(** A handler's result handed on to [setFields]. *)
Definition hand_on (r : option (list Field)) (setFields : list Field -> outcome)
  : outcome :=
  match r with
  | Some newFields => setFields newFields
  | None => Fails
  end.

(** The tree a control of the editor over [fields] hands to
    [setFields]; a card has controls when it is rendered. *)
Definition act (a : action) (fields : list Field) : option (option (list Field)) :=
  match a with
  | ChangeKey index text =>
      if decide (index < length fields) then
        Some (updateField fields (Z.of_nat index)
                (mkPartial (Some (strip_newlines text)) None None))
      else None
  | ChangeType index ty =>
      if decide (index < length fields) then
        Some (updateField fields (Z.of_nat index) (mkPartial None (Some ty) None))
      else None
  | ClickRemove index =>
      if decide (index < length fields) then
        Some (Some (removeField fields (Z.of_nat index)))
      else None
  | ClickAdd => Some (Some (addField fields))
  end.

Fixpoint FieldEditor_event (path : list nat) (a : action) (fields : list Field)
    (setFields : list Field -> outcome) : outcome :=
  match path with
  | [] =>
      match act a fields with
      | Some r => hand_on r setFields
      | None => NoControl
      end
  | index :: rest =>
      match fields !! index with
      | None => NoControl
      | Some field =>
          match type field with
          | TNested =>
              FieldEditor_event rest a (children field)
                (fun newChildren =>
                   hand_on (updateChildren fields (Z.of_nat index) newChildren)
                           setFields)
          | _ => NoControl
          end
      end
  end.

(** At the top [setFields] is the state setter of [JsonSchemaBuilder]. *)
Definition JsonSchemaBuilder_event (path : list nat) (a : action)
    (fields : list Field) : outcome :=
  FieldEditor_event path a fields SetState.

(** A field whose key, and the keys below it, hold no line feed and no
    carriage return: the keys the name field can give. *)
Fixpoint typeable (f : Field) : bool :=
  bool_decide (strip_newlines (key f) = key f)
  && forallb typeable (children f).

Definition typeable_tree (fields : list Field) : bool :=
  forallb typeable fields.

(** ** Sessions

    The state starts as [useState([])] has it; every use of a control
    sets the state the next one finds. *)

Definition event : Type := list nat * action.

Fixpoint run_events (evs : list event) (fields : list Field) : outcome :=
  match evs with
  | [] => SetState fields
  | (path, a) :: evs' =>
      match JsonSchemaBuilder_event path a fields with
      | SetState newFields => run_events evs' newFields
      | o => o
      end
  end.

(** An event of the nested editor at position [i], seen from above. *)
Definition under (i : nat) (ev : event) : event := (i :: fst ev, snd ev).

(** The clicks and keystrokes that put the field [f] at the end of an
    editor holding [i] fields: add a field, name it, make it [Nested],
    fill its nested editor field by field, give it its type. *)
Fixpoint build_field (i : nat) (f : Field) : list event :=
  [([], ClickAdd); ([], ChangeKey i (key f)); ([], ChangeType i TNested)]
  ++ map (under i)
       ((fix level (j : nat) (l : list Field) : list event :=
           match l with
           | [] => []
           | c :: l' => build_field j c ++ level (S j) l'
           end) 0 (children f))
  ++ [([], ChangeType i (type f))].

Fixpoint build_from (i : nat) (fields : list Field) : list event :=
  match fields with
  | [] => []
  | f :: fields' => build_field i f ++ build_from (S i) fields'
  end.

Definition build (fields : list Field) : list event := build_from 0 fields.

(** ** Reading the text back

    The lines of a text, the text of a JSON string (RFC 8259, section
    7: no quotation mark, backslash or control character stands
    unescaped), and the keys that the lines of a layout show at a
    depth. *)











(* ================================================================= *)
(** * Properties *)

(** ** The derivation as a left fold *)

Lemma generateSchema_fold fields :
  generateSchema fields = derive_from empty_object fields.
Proof. reflexivity. Qed.

Lemma derive_from_app schema t1 t2 :
  derive_from schema (t1 ++ t2) = derive_from (derive_from schema t1) t2.
Proof. apply fold_left_app. Qed.

Lemma derive_from_cons schema f t :
  derive_from schema (f :: t) = derive_from (assign_field field_value schema f) t.
Proof. reflexivity. Qed.

Lemma field_value_nested f :
  type f = TNested -> field_value f = VObject (generateSchema (children f)).
Proof. destruct f as [k ty ch]; simpl. by intros ->. Qed.

Lemma field_value_leaf f :
  type f <> TNested -> field_value f = getDefaultValue (type f).
Proof. destruct f as [k [] ch]; simpl; congruence. Qed.

Lemma assign_field_callback schema f :
  assign_field field_value schema f = forEach_callback schema f.
Proof.
  unfold assign_field, forEach_callback. case_decide; [done|].
  destruct f as [k [] ch]; reflexivity.
Qed.

Lemma generateSchema_unfold fields :
  generateSchema fields = fold_left forEach_callback fields empty_object.
Proof.
  unfold generateSchema. generalize empty_object.
  induction fields as [|f t IH]; intros s; simpl; [done|].
  by rewrite IH, assign_field_callback.
Qed.

(** ** Own properties: [put] and [assoc] *)

Lemma assoc_put_eq k v ps : assoc k (put k v ps) = Some v.
Proof.
  induction ps as [|[k' v'] ps IH]; simpl.
  - by rewrite decide_True.
  - destruct (decide (k' = k)); simpl.
    + by rewrite decide_True.
    + by rewrite decide_False.
Qed.

Lemma assoc_put_ne k k' v ps : k <> k' -> assoc k' (put k v ps) = assoc k' ps.
Proof.
  intros Hne. induction ps as [|[k0 v0] ps IH]; simpl.
  - by rewrite decide_False.
  - destruct (decide (k0 = k)) as [->|]; simpl.
    + by rewrite !decide_False.
    + destruct (decide (k0 = k')); [done | apply IH].
Qed.

Lemma assoc_Some_keys k ps : is_Some (assoc k ps) <-> k ∈ map fst ps.
Proof.
  induction ps as [|[k' v'] ps IH]; simpl.
  - split; [by intros [? ?] | by intros ?%elem_of_nil].
  - rewrite elem_of_cons. destruct (decide (k' = k)) as [->|].
    + split; [by left | by eexists].
    + rewrite IH. split; [by right | by intros [?|?]; [congruence|]].
Qed.

Lemma keys_put k v ps :
  map fst (put k v ps)
  = if decide (k ∈ map fst ps) then map fst ps else map fst ps ++ [k].
Proof.
  induction ps as [|[k' v'] ps IH]; cbn [put map fst].
  - rewrite decide_False; [done | apply not_elem_of_nil].
  - destruct (decide (k' = k)) as [->|Hne]; cbn [map fst].
    + rewrite decide_True; [done | by left].
    + rewrite IH. destruct (decide (k ∈ map fst ps)).
      * rewrite decide_True; [done | by right].
      * rewrite decide_False; [done|].
        rewrite elem_of_cons. intros [?|?]; congruence.
Qed.

(** ** What one assignment does *)

Lemma set_property_own o k v :
  k <> "__proto__" -> own_props (set_property o k v) = put k v (own_props o).
Proof. intros Hk. unfold set_property. by rewrite decide_False. Qed.

Lemma set_property_proto_own o v :
  own_props (set_property o "__proto__" v) = own_props o.
Proof. unfold set_property. rewrite decide_True by done. by destruct v. Qed.

Lemma assign_field_own schema f :
  own_props (assign_field field_value schema f)
  = if decide (stored (key f)) then put (key f) (field_value f) (own_props schema)
    else own_props schema.
Proof.
  unfold assign_field, stored. destruct (decide (key f = "")) as [He|He].
  - rewrite decide_False; [done | tauto].
  - destruct (decide (key f = "__proto__")) as [Hp|Hp].
    + rewrite decide_False by tauto. rewrite Hp. apply set_property_proto_own.
    + rewrite decide_True by tauto. by apply set_property_own.
Qed.

Lemma assign_field_empty_key schema f :
  key f = "" -> assign_field field_value schema f = schema.
Proof. intros He. unfold assign_field. by rewrite decide_True. Qed.

Lemma assign_field_get_own schema f :
  stored (key f) ->
  get_own (assign_field field_value schema f) (key f) = Some (field_value f).
Proof.
  intros Hs. unfold get_own. rewrite assign_field_own, decide_True by done.
  apply assoc_put_eq.
Qed.

Lemma assign_field_get_other schema f k :
  k <> key f ->
  get_own (assign_field field_value schema f) k = get_own schema k.
Proof.
  intros Hne. unfold get_own. rewrite assign_field_own.
  case_decide; [|done]. by apply assoc_put_ne.
Qed.

(** ** The whole loop: values and creation order *)

Lemma last_with_key_cons k f t :
  last_with_key k (f :: t)
  = match last_with_key k t with
    | Some g => Some g
    | None => if decide (key f = k) then Some f else None
    end.
Proof.
  unfold last_with_key. rewrite filter_cons.
  destruct (decide (key f = k)); [|by destruct (last _)].
  destruct (filter _ t) as [|g l] eqn:E; [done|].
  rewrite last_cons. by destruct (last (g :: l)) eqn:E'; [|destruct l].
Qed.

Lemma derive_from_get_own schema t k :
  stored k ->
  get_own (derive_from schema t) k
  = match last_with_key k t with
    | Some f => Some (field_value f)
    | None => get_own schema k
    end.
Proof.
  intros Hk. revert schema. induction t as [|f t IH]; intros schema; [done|].
  rewrite derive_from_cons, IH, last_with_key_cons.
  destruct (last_with_key k t); [done|].
  destruct (decide (key f = k)) as [He|Hne].
  - subst k. by apply assign_field_get_own.
  - apply assign_field_get_other. congruence.
Qed.

Lemma derive_from_get_unstored schema t k :
  ~ stored k -> get_own (derive_from schema t) k = get_own schema k.
Proof.
  intros Hk. revert schema. induction t as [|f t IH]; intros schema; [done|].
  rewrite derive_from_cons, IH. unfold get_own. rewrite assign_field_own.
  case_decide as Hs; [|done]. apply assoc_put_ne. congruence.
Qed.

Lemma first_occurrences_subseteq l x : x ∈ first_occurrences l -> x ∈ l.
Proof.
  revert x. induction l as [|k l IH]; intros x; simpl; [done|].
  rewrite !elem_of_cons, list_elem_of_filter. naive_solver.
Qed.

Lemma elem_of_first_occurrences l x : x ∈ first_occurrences l <-> x ∈ l.
Proof.
  split; [apply first_occurrences_subseteq|].
  induction l as [|k l IH]; simpl; [done|].
  rewrite !elem_of_cons, list_elem_of_filter.
  destruct (decide (x = k)); naive_solver.
Qed.

Lemma NoDup_first_occurrences l : NoDup (first_occurrences l).
Proof.
  induction l as [|k l IH]; simpl; [constructor|].
  constructor; [|by apply NoDup_filter].
  rewrite list_elem_of_filter. naive_solver.
Qed.

Lemma filter_first_occurrences (P : string -> Prop) `{!forall x, Decision (P x)} l :
  filter P (first_occurrences l) = first_occurrences (filter P l).
Proof.
  induction l as [|k l IH]; simpl; [done|].
  rewrite !filter_cons. destruct (decide (P k)) as [HP|HP]; simpl.
  - f_equal. rewrite <- IH, !list_filter_filter.
    apply list_filter_iff. naive_solver.
  - rewrite <- IH, list_filter_filter. apply list_filter_iff.
    intros x. split; [naive_solver|]. intros Hx. split; [done|]. by intros ->.
Qed.

Lemma derive_from_keys schema t :
  map fst (own_props (derive_from schema t))
  = map fst (own_props schema)
    ++ first_occurrences
         (filter (fun k => stored k /\ k ∉ map fst (own_props schema)) (map key t)).
Proof.
  revert schema. induction t as [|f t IH]; intros schema.
  - simpl. by rewrite app_nil_r.
  - rewrite derive_from_cons, IH, assign_field_own. cbn [map].
    rewrite filter_cons.
    destruct (decide (stored (key f))) as [Hs|Hs].
    + rewrite keys_put.
      destruct (decide (key f ∈ map fst (own_props schema))) as [Hin|Hin].
      * rewrite decide_False by tauto. done.
      * rewrite decide_True by tauto. cbn [first_occurrences].
        rewrite <- app_assoc. cbn [app]. do 2 f_equal.
        rewrite filter_first_occurrences, list_filter_filter. f_equal.
        apply list_filter_iff. intros x. rewrite elem_of_app, list_elem_of_singleton.
        naive_solver.
    + rewrite decide_False by tauto. done.
Qed.

Lemma generateSchema_keys t :
  map fst (own_props (generateSchema t))
  = first_occurrences (filter stored (map key t)).
Proof.
  rewrite generateSchema_fold, derive_from_keys. cbn [own_props empty_object map app].
  f_equal. apply list_filter_iff. intros x. split; [tauto|].
  intros ?. split; [done | apply not_elem_of_nil].
Qed.

Lemma generateSchema_get_own t k :
  get_own (generateSchema t) k
  = if decide (stored k) then field_value <$> last_with_key k t else None.
Proof.
  rewrite generateSchema_fold. case_decide.
  - rewrite derive_from_get_own by done. by destruct (last_with_key k t).
  - by rewrite derive_from_get_unstored.
Qed.

(** ** Array indices are canonical numerals *)

Lemma digit_of_Some a d : digit_of a = Some d -> N_of_ascii a = (d + 48)%N /\ (d <= 9)%N.
Proof.
  unfold digit_of. destruct (_ && _) eqn:E; [|done]. intros [= <-].
  apply andb_true_iff in E as [H1%N.leb_le H2%N.leb_le]. lia.
Qed.

Lemma digit_of_inj a b d : digit_of a = Some d -> digit_of b = Some d -> a = b.
Proof.
  intros [Ha _]%digit_of_Some [Hb _]%digit_of_Some.
  rewrite <- (ascii_N_embedding a), <- (ascii_N_embedding b). congruence.
Qed.

Lemma scale_cons a s : scale (String a s) = (10 * scale s)%N.
Proof.
  unfold scale. cbn [String.length]. rewrite Nat2N.inj_succ, N.pow_succ_r'. done.
Qed.

Lemma scale_pos s : (0 < scale s)%N.
Proof. unfold scale. apply N.neq_0_lt_0, N.pow_nonzero. lia. Qed.

Lemma digits_value_acc acc s n :
  digits_value acc s = Some n <->
  exists v, digits_value 0 s = Some v /\ n = (acc * scale s + v)%N.
Proof.
  revert acc n. induction s as [|a s IH]; intros acc n.
  - cbn [digits_value]. unfold scale. simpl. split.
    + intros [= <-]. exists 0%N. split; [done | lia].
    + intros (v & [= <-] & ->). f_equal. lia.
  - change (digits_value acc (String a s))
      with (match digit_of a with
            | Some d => digits_value (acc * 10 + d)%N s
            | None => None
            end).
    change (digits_value 0 (String a s))
      with (match digit_of a with
            | Some d => digits_value (0 * 10 + d)%N s
            | None => None
            end).
    destruct (digit_of a) as [d|]; [|naive_solver].
    rewrite scale_cons. split.
    + intros (v & Hv & ->)%IH. exists (d * scale s + v)%N. split; [|lia].
      apply IH. exists v. split; [done | lia].
    + intros (v' & (v & Hv & ->)%IH & ->). apply IH.
      exists v. split; [done | lia].
Qed.

Lemma digits_value_cons a s v :
  digits_value 0 (String a s) = Some v <->
  exists d v', digit_of a = Some d /\ digits_value 0 s = Some v'
    /\ v = (d * scale s + v')%N.
Proof.
  change (digits_value 0 (String a s))
    with (match digit_of a with
          | Some d => digits_value (0 * 10 + d)%N s
          | None => None
          end).
  destruct (digit_of a) as [d|]; [|naive_solver]. split.
  - intros (v' & Hv' & ->)%digits_value_acc. exists d, v'.
    split_and!; [done | done | lia].
  - intros (d' & v' & [= <-] & Hv' & ->). apply digits_value_acc.
    exists v'. split; [done | lia].
Qed.

Lemma digits_value_lt s v : digits_value 0 s = Some v -> (v < scale s)%N.
Proof.
  revert v. induction s as [|a s IH]; intros v.
  - intros [= <-]. apply scale_pos.
  - intros (d & v' & [_ Hd]%digit_of_Some & Hv'%IH & ->)%digits_value_cons.
    rewrite scale_cons. nia.
Qed.

Lemma digits_value_inj s1 s2 v :
  String.length s1 = String.length s2 ->
  digits_value 0 s1 = Some v -> digits_value 0 s2 = Some v -> s1 = s2.
Proof.
  revert s2 v. induction s1 as [|a1 s1 IH]; intros [|a2 s2] v Hlen; try done.
  intros (d1 & v1 & Hd1 & Hv1 & ->)%digits_value_cons
         (d2 & v2 & Hd2 & Hv2 & Heq)%digits_value_cons.
  injection Hlen as Hlen.
  pose proof (digits_value_lt _ _ Hv1) as Hlt1.
  pose proof (digits_value_lt _ _ Hv2) as Hlt2.
  assert (Hscale : scale s1 = scale s2) by (unfold scale; by rewrite Hlen).
  rewrite Hscale in *.
  assert (d1 = d2) as ->.
  { destruct (N.lt_trichotomy d1 d2) as [H|[H|H]]; [|done|]; exfalso; nia. }
  assert (v1 = v2) as -> by lia.
  f_equal; [by eapply digit_of_inj | by eapply IH].
Qed.

(** What [array_index] accepts: the numeral ["0"], or digits that do
    not start with a zero, of a value below 2^32 - 1. *)
Lemma array_index_Some k n :
  array_index k = Some n ->
  (k = "0" /\ n = 0%N)
  \/ exists a s d, k = String a s /\ digit_of a = Some d /\ (1 <= d)%N
       /\ digits_value 0 k = Some n.
Proof.
  destruct k as [|a s]; [done|].
  destruct (decide (a = "0"%char)) as [->|Ha].
  - destruct s; [intros [= <-]; by left | done].
  - intros H. right.
    assert (Hparse : match digits_value 0 (String a s) with
                     | Some n => if (n <? 2 ^ 32 - 1)%N then Some n else None
                     | None => None
                     end = Some n).
    { revert H. unfold array_index.
      destruct a as [[] [] [] [] [] [] [] []]; try done. }
    destruct (digits_value 0 (String a s)) as [m|] eqn:Hm; [|done].
    destruct (m <? 2 ^ 32 - 1)%N; [|done]. injection Hparse as ->.
    pose proof Hm as (d & v' & Hd & _ & _)%digits_value_cons.
    exists a, s, d. split_and!; [done | done | | done].
    destruct (decide (d = 0%N)) as [->|]; [|lia].
    exfalso. apply Ha. by apply (digit_of_inj a "0"%char 0%N).
Qed.

Lemma digits_value_ge a s d n :
  digit_of a = Some d -> (1 <= d)%N ->
  digits_value 0 (String a s) = Some n -> (scale s <= n)%N.
Proof.
  intros Hd Hpos (d' & v' & Hd' & _ & ->)%digits_value_cons.
  assert (d' = d) as -> by congruence. nia.
Qed.

Lemma array_index_inj k1 k2 n :
  array_index k1 = Some n -> array_index k2 = Some n -> k1 = k2.
Proof.
  intros [[-> ->]|(a1 & s1 & d1 & -> & Hd1 & Hp1 & Hv1)]%array_index_Some
         [[-> Hn]|(a2 & s2 & d2 & -> & Hd2 & Hp2 & Hv2)]%array_index_Some.
  - done.
  - pose proof (digits_value_ge _ _ _ _ Hd2 Hp2 Hv2).
    pose proof (scale_pos s2). lia.
  - subst n. pose proof (digits_value_ge _ _ _ _ Hd1 Hp1 Hv1).
    pose proof (scale_pos s1). lia.
  - apply (digits_value_inj _ _ n); [|done|done].
    pose proof (digits_value_ge _ _ _ _ Hd1 Hp1 Hv1) as Hge1.
    pose proof (digits_value_ge _ _ _ _ Hd2 Hp2 Hv2) as Hge2.
    pose proof (digits_value_lt _ _ Hv1) as Hlt1.
    pose proof (digits_value_lt _ _ Hv2) as Hlt2.
    rewrite scale_cons in Hlt1, Hlt2.
    cbn [String.length]. f_equal.
    destruct (Nat.lt_trichotomy (String.length s1) (String.length s2))
      as [Hlt|[Heq|Hlt]]; [|done|].
    + exfalso. assert (10 * scale s1 <= scale s2)%N; [|lia].
      unfold scale. rewrite <- N.pow_succ_r', <- Nat2N.inj_succ.
      apply N.pow_le_mono_r; lia.
    + exfalso. assert (10 * scale s2 <= scale s1)%N; [|lia].
      unfold scale. rewrite <- N.pow_succ_r', <- Nat2N.inj_succ.
      apply N.pow_le_mono_r; lia.
Qed.

(** ** Enumeration order *)

Section EnumerationFacts.
Context {A : Type}.
Implicit Types (ps : list (string * A)) (l : list (N * (string * A))).

Lemma insert_by_index_perm n e l : insert_by_index n e l ≡ₚ (n, e) :: l.
Proof.
  induction l as [|[m e'] l IH]; simpl; [done|].
  destruct (n <=? m)%N; [done|]. rewrite IH. apply Permutation_swap.
Qed.

Lemma sort_by_index_perm l : sort_by_index l ≡ₚ l.
Proof.
  induction l as [|[n e] l IH]; simpl; [done|].
  by rewrite insert_by_index_perm, IH.
Qed.

Lemma insert_by_index_sorted n e l :
  StronglySorted N.le (map fst l) ->
  StronglySorted N.le (map fst (insert_by_index n e l)).
Proof.
  induction l as [|[m e'] l IH]; simpl; intros Hs.
  - repeat constructor.
  - destruct (n <=? m)%N eqn:Hle; simpl.
    + apply N.leb_le in Hle. inversion_clear Hs as [|? ? Hs' Hall].
      constructor; [by constructor|]. constructor; [done|].
      eapply Forall_impl; [exact Hall|]. intros x Hx. simpl in Hx. lia.
    + apply N.leb_gt in Hle. inversion_clear Hs as [|? ? Hs' Hall].
      constructor; [by apply IH|].
      assert (Hp : map fst (insert_by_index n e l) ≡ₚ n :: map fst l).
      { by rewrite insert_by_index_perm. }
      rewrite Hp. constructor; [simpl; lia | done].
Qed.

Lemma sort_by_index_sorted l : StronglySorted N.le (map fst (sort_by_index l)).
Proof.
  induction l as [|[n e] l IH]; simpl; [constructor|].
  by apply insert_by_index_sorted.
Qed.

Lemma elem_of_index_entries ps n e :
  (n, e) ∈ index_entries ps <-> e ∈ ps /\ array_index (fst e) = Some n.
Proof.
  unfold index_entries. rewrite list_elem_of_omap. split.
  - intros (e' & Hin & Heq). destruct (array_index (fst e')) eqn:E; [|done].
    by simplify_eq.
  - intros [Hin Hidx]. exists e. by rewrite Hidx.
Qed.

Lemma sorted_entries_index ps :
  map (fun x => array_index (fst (snd x))) (sort_by_index (index_entries ps))
  = map (fun x => Some (fst x)) (sort_by_index (index_entries ps)).
Proof.
  apply map_ext_in. intros [n e] Hin%list_elem_of_In. simpl.
  rewrite sort_by_index_perm in Hin. by apply elem_of_index_entries in Hin as [_ ?].
Qed.

Lemma named_entries_keys ps :
  map fst (named_entries ps) = filter (fun k => is_index k = false) (map fst ps).
Proof.
  unfold named_entries. induction ps as [|e ps IH]; [done|].
  cbn [map]. rewrite !filter_cons. destruct (decide (is_index (fst e) = false)).
  - cbn [map]. by rewrite IH.
  - done.
Qed.
End EnumerationFacts.

Lemma enumerate_perm {A} (ps : list (string * A)) : enumerate ps ≡ₚ ps.
Proof.
  unfold enumerate. rewrite sort_by_index_perm.
  unfold index_entries, named_entries. induction ps as [|e ps IH]; [done|].
  rewrite filter_cons. simpl. unfold is_index.
  destruct (array_index (fst e)) as [n|]; simpl.
  - constructor. exact IH.
  - rewrite <- Permutation_middle. constructor. exact IH.
Qed.

Lemma ownKeys_split o : ownKeys o = index_keys o ++ named_keys o.
Proof.
  unfold ownKeys, enumerate, index_keys, named_keys.
  by rewrite map_app, map_map.
Qed.

Lemma named_keys_filter o :
  named_keys o = filter (fun k => is_index k = false) (map fst (own_props o)).
Proof. apply named_entries_keys. Qed.

Lemma index_keys_sorted o :
  exists ns, map array_index (index_keys o) = map Some ns /\ StronglySorted N.le ns.
Proof.
  exists (map fst (sort_by_index (index_entries (own_props o)))). split.
  - unfold index_keys. rewrite !map_map. apply sorted_entries_index.
  - apply sort_by_index_sorted.
Qed.

Lemma elem_of_index_keys o k :
  k ∈ index_keys o <-> is_index k = true /\ k ∈ map fst (own_props o).
Proof.
  unfold index_keys. rewrite list_elem_of_fmap. split.
  - intros ([n e] & -> & Hin). rewrite sort_by_index_perm in Hin.
    apply elem_of_index_entries in Hin as [Hin Hidx]. simpl. split.
    + unfold is_index. by rewrite Hidx.
    + apply list_elem_of_fmap. by exists e.
  - intros [Hidx Hin]. apply list_elem_of_fmap in Hin as (e & -> & Hin).
    unfold is_index in Hidx. destruct (array_index (fst e)) as [n|] eqn:E; [|done].
    exists (n, e). split; [done|]. rewrite sort_by_index_perm.
    by apply elem_of_index_entries.
Qed.

Lemma elem_of_ownKeys o k : k ∈ ownKeys o <-> k ∈ map fst (own_props o).
Proof.
  rewrite ownKeys_split, elem_of_app, elem_of_index_keys, named_keys_filter,
    list_elem_of_filter.
  destruct (is_index k); naive_solver.
Qed.

Lemma is_index_stored k : is_index k = true -> stored k.
Proof.
  intros Hk. split; intros ->; discriminate Hk.
Qed.

(** ** The derivation reads a node through its key and value only *)

Lemma assign_field_same_entry schema f g :
  same_entry f g ->
  assign_field field_value schema f = assign_field field_value schema g.
Proof. intros [Hk Hv]. unfold assign_field. by rewrite Hk, Hv. Qed.

Lemma derive_from_same_entries schema t t' :
  Forall2 same_entry t t' -> derive_from schema t = derive_from schema t'.
Proof.
  intros H. revert schema. induction H as [|f g t t' Hfg _ IH]; intros schema.
  - done.
  - rewrite !derive_from_cons, (assign_field_same_entry _ f g) by done. apply IH.
Qed.

Lemma derive_from_insert schema t i f g :
  t !! i = Some f -> same_entry g f ->
  derive_from schema (<[i := g]> t) = derive_from schema t.
Proof.
  intros Hi Hfg. apply derive_from_same_entries.
  apply Forall2_same_length_lookup. split; [by rewrite length_insert|].
  intros j x y Hx Hy. destruct (decide (i = j)) as [->|Hne].
  - rewrite list_lookup_insert_eq in Hx by (by eapply lookup_lt_Some).
    by simplify_eq.
  - rewrite list_lookup_insert_ne in Hx by done. by simplify_eq.
Qed.

Lemma generateSchema_no_keys t :
  Forall (fun f => key f = "") t -> generateSchema t = empty_object.
Proof.
  rewrite generateSchema_fold. generalize empty_object.
  induction t as [|f t IH]; intros s Hall; [done|].
  inversion_clear Hall as [|? ? Hf Ht].
  rewrite derive_from_cons, assign_field_empty_key by done. by apply IH.
Qed.

Lemma generateSchema_key_set t k :
  k ∈ ownKeys (generateSchema t) <-> stored k /\ k ∈ map key t.
Proof.
  rewrite elem_of_ownKeys, generateSchema_keys, elem_of_first_occurrences,
    list_elem_of_filter. done.
Qed.

Lemma generateSchema_keys_NoDup t : NoDup (ownKeys (generateSchema t)).
Proof.
  unfold ownKeys. rewrite enumerate_perm, generateSchema_keys.
  apply NoDup_first_occurrences.
Qed.

Lemma forEach_callback_entry schema f :
  stored (key f) ->
  get_own (forEach_callback schema f) (key f)
  = Some match type f with
         | TNested => VObject (generateSchema (children f))
         | TString => VString ""
         | TNumber => VNumber 0
         end.
Proof.
  intros Hs. rewrite <- assign_field_callback, assign_field_get_own by done.
  by destruct f as [k [] ch].
Qed.

(** ** Claims about the derivation *)

(** C1 (defect of the code).  The claim gives every node with a
    non-empty key an entry under that key.  A [String] node named
    ["__proto__"] has a non-empty key, yet the callback leaves the
    object as it was and the derived object has no entry for the key:
    the assignment reaches the [__proto__] setter, which ignores a
    string.  For every other non-empty key the entry is the one the
    claim gives ([forEach_callback_entry]), and an empty key
    contributes nothing ([assign_field_empty_key]). *)
Theorem generateSchema_drops_proto_string :
  let f := mkField "__proto__" TString [] in
  key f <> ""
  /\ forEach_callback empty_object f = empty_object
  /\ generateSchema [f] = empty_object
  /\ get_own (generateSchema [f]) (key f) = None.
Proof. repeat split. discriminate. Qed.

(** C2 (defect of the code).  The key set of the derived object is to
    be the set of non-empty top-level keys.  With a [Number] node named
    ["__proto__"] after a node named ["a"], the non-empty keys are
    ["a"] and ["__proto__"], and the derived object has the single key
    ["a"].  Apart from that key the claim holds: [generateSchema_key_set],
    [generateSchema_get_own] and [generateSchema_no_keys]. *)
Theorem generateSchema_key_set_misses_proto :
  let t := [mkField "a" TString []; mkField "__proto__" TNumber []] in
  filter (fun k => k <> "") (map key t) = ["a"; "__proto__"]
  /\ ownKeys (generateSchema t) = ["a"]
  /\ generateSchema t = Obj [("a", VString "")] None.
Proof. repeat split. Qed.

(** C6.  [addField] appends one node with key [""], type [String] and
    no children, and the derived object is the one derived before the
    add. *)
Theorem addField_derive_unchanged (t : list Field) :
  addField t = t ++ [mkField "" TString []]
  /\ length (addField t) = S (length t)
  /\ generateSchema (addField t) = generateSchema t.
Proof.
  split; [done|]. split.
  - unfold addField. rewrite length_app. simpl. lia.
  - unfold addField. rewrite !generateSchema_fold, derive_from_app.
    simpl. by rewrite assign_field_empty_key.
Qed.

(** C7.  Replacing the children of a node whose type is not [Nested],
    at any depth of the tree, by any sequence leaves the derived object
    the same. *)
Theorem dormant_children_ignored (t : list Field) (path : list nat)
    (c : list Field) (f : Field) :
  node_at path t = Some f ->
  type f <> TNested ->
  generateSchema (replace_children path c t) = generateSchema t.
Proof.
  revert t. induction path as [|i rest IH]; intros t Hat Hty; [done|].
  cbn [node_at replace_children] in *.
  destruct (t !! i) as [g|] eqn:Hi; [|done].
  rewrite !generateSchema_fold. eapply derive_from_insert; [done|].
  split; [done|]. destruct rest as [|j rest].
  - simplify_eq. by rewrite !field_value_leaf.
  - destruct (decide (type g = TNested)) as [Hg|Hg].
    + rewrite !field_value_nested by done. cbn [children]. f_equal.
      by apply IH.
    + by rewrite !field_value_leaf.
Qed.

Lemma dormant_children_ignored_witness :
  let t := [mkField "a" TNested [mkField "x" TString []; mkField "b" TNumber []]] in
  let c := [mkField "hidden" TNumber []] in
  node_at [0; 1] t = Some (mkField "b" TNumber [])
  /\ replace_children [0; 1] c t
      = [mkField "a" TNested [mkField "x" TString []; mkField "b" TNumber c]]
  /\ generateSchema (replace_children [0; 1] c t) = generateSchema t.
Proof.
  split; [reflexivity|]. split; [reflexivity|].
  apply (dormant_children_ignored _ [0; 1] _ (mkField "b" TNumber []));
    [reflexivity | discriminate].
Defined.

Lemma StronglySorted_le_lt (ns : list N) :
  StronglySorted N.le ns -> NoDup ns -> StronglySorted N.lt ns.
Proof.
  induction 1 as [|n ns Hs IH Hall]; intros Hnd; [constructor|].
  apply NoDup_cons in Hnd as [Hn Hnd]. constructor; [by apply IH|].
  apply Forall_forall. intros m Hm.
  pose proof (proj1 (Forall_forall _ _) Hall m Hm) as Hle.
  destruct (decide (n = m)) as [->|]; [done | lia].
Qed.

Lemma index_keys_strictly_sorted t :
  exists ns,
    map array_index (index_keys (generateSchema t)) = map Some ns
    /\ StronglySorted N.lt ns.
Proof.
  destruct (index_keys_sorted (generateSchema t)) as (ns & Hns & Hsorted).
  exists ns. split; [done|]. apply StronglySorted_le_lt; [done|].
  assert (Hnd : NoDup (index_keys (generateSchema t))).
  { pose proof (generateSchema_keys_NoDup t) as H.
    rewrite ownKeys_split in H. by apply NoDup_app in H as [? _]. }
  apply (NoDup_fmap_1 Some). change (NoDup (map Some ns)). rewrite <- Hns.
  apply (NoDup_fmap_2_strong array_index); [|done].
  intros k1 k2 [Hk1 _]%elem_of_index_keys _ Heq. unfold is_index in Hk1.
  destruct (array_index k1) as [n|] eqn:H1; [|done].
  by apply (array_index_inj k1 k2 n).
Qed.

(** C10 (as the code has it).  When two or more nodes of a level share
    a key that is neither empty nor ["__proto__"], the value under the
    key is that of the latest such node, whatever the key.  The place
    of the key is another matter: the derived object lists its keys in
    two runs.  The keys that are array indices come first, in strictly
    ascending numeric order, wherever their nodes stand.  The other
    keys follow in the order of their first nodes: among the keys that
    are neither empty, nor array indices, nor ["__proto__"], a repeated
    key keeps the place of its earliest node. *)
Theorem generateSchema_key_order (t : list Field) :
  (forall k, k <> "" -> k <> "__proto__" ->
     get_own (generateSchema t) k = field_value <$> last_with_key k t)
  /\ filter named (ownKeys (generateSchema t))
     = first_occurrences (filter named (map key t))
  /\ exists idx rest ns,
       ownKeys (generateSchema t) = idx ++ rest
       /\ map array_index idx = map Some ns
       /\ StronglySorted N.lt ns
       /\ Forall (fun k => is_index k = false) rest
       /\ forall k, k ∈ idx <-> is_index k = true /\ k ∈ map key t.
Proof.
  split; [|split].
  - intros k Hk Hp. rewrite generateSchema_get_own, decide_True; done.
  - rewrite ownKeys_split, filter_app, named_keys_filter, generateSchema_keys.
    assert (Hnil : filter named (index_keys (generateSchema t)) = []).
    { apply elem_of_nil_inv. intros k [Hn Hk]%list_elem_of_filter.
      apply elem_of_index_keys in Hk as [Hk _]. destruct Hn as (_ & Hn & _).
      congruence. }
    rewrite Hnil, app_nil_l.
    rewrite list_filter_filter, filter_first_occurrences, list_filter_filter.
    f_equal. apply list_filter_iff. unfold named, stored. naive_solver.
  - destruct (index_keys_strictly_sorted t) as (ns & Hns & Hsorted).
    exists (index_keys (generateSchema t)), (named_keys (generateSchema t)), ns.
    split_and!; [apply ownKeys_split | done | done | |].
    + rewrite named_keys_filter. apply Forall_forall.
      by intros k [? _]%list_elem_of_filter.
    + intros k. rewrite elem_of_index_keys, generateSchema_keys,
        elem_of_first_occurrences, list_elem_of_filter.
      split; [naive_solver|]. intros [Hk Hin]. auto using is_index_stored.
Qed.

(** C10, as stated, fails: both nodes named ["10"] stand around the
    node named ["9"], the earliest before it, and the derived object
    lists ["9"] first.  The value under ["10"] is that of the latest
    node all the same. *)
Lemma first_occurrence_order_fails :
  let t := [mkField "10" TString []; mkField "9" TString []; mkField "10" TNumber []] in
  first_occurrences (filter (fun k => k <> "") (map key t)) = ["10"; "9"]
  /\ ownKeys (generateSchema t) = ["9"; "10"]
  /\ ownKeys (generateSchema t)
     <> first_occurrences (filter (fun k => k <> "") (map key t))
  /\ get_own (generateSchema t) "10" = Some (VNumber 0).
Proof.
  split; [reflexivity|]. split; [reflexivity|]. split; [discriminate|].
  reflexivity.
Qed.

(** ** Edit operations on values *)

Lemma in_range_Some {A} (l : list A) (i : nat) :
  i < length l -> in_range (Z.of_nat i) l = Some i.
Proof.
  intros Hi. unfold in_range. rewrite decide_True by lia.
  by rewrite Nat2Z.id.
Qed.

Lemma in_range_None {A} (l : list A) (index : Z) :
  (index < 0 \/ Z.of_nat (length l) <= index)%Z -> in_range index l = None.
Proof. intros Hi. unfold in_range. rewrite decide_False; [done | lia]. Qed.

Lemma filter_from_outside {A} (l : list A) (j : nat) (index : Z) :
  (index < Z.of_nat j \/ Z.of_nat (j + length l) <= index)%Z ->
  filter_from j index l = l.
Proof.
  revert j. induction l as [|x l IH]; intros j Hout; simpl; [done|].
  simpl in Hout. rewrite decide_True by lia. f_equal. apply IH. lia.
Qed.

Lemma filter_from_inside {A} (l : list A) (j n : nat) :
  n < length l ->
  filter_from j (Z.of_nat (j + n)) l = take n l ++ drop (S n) l.
Proof.
  revert j n. induction l as [|x l IH]; intros j n Hn; simpl in *; [lia|].
  destruct n as [|n].
  - rewrite decide_False by lia. simpl. rewrite drop_0.
    apply filter_from_outside. lia.
  - rewrite decide_True by lia. simpl. f_equal.
    replace (j + S n) with (S j + n) by lia. apply IH. lia.
Qed.

(** C5.  For an index inside the tree, [removeField] returns the
    elements before the index followed by the elements after it, in
    their order; the result is one element shorter. *)
Theorem removeField_in_range (t : list Field) (index : Z) :
  (0 <= index < Z.of_nat (length t))%Z ->
  removeField t index
    = take (Z.to_nat index) t ++ drop (S (Z.to_nat index)) t
  /\ S (length (removeField t index)) = length t.
Proof.
  intros Hi. assert (Heq : removeField t index
    = take (Z.to_nat index) t ++ drop (S (Z.to_nat index)) t).
  { unfold removeField. rewrite <- (Z2Nat.id index) at 1 by lia.
    apply (filter_from_inside t 0). lia. }
  split; [done|]. rewrite Heq, length_app, length_take, length_drop. lia.
Qed.

Lemma removeField_in_range_witness :
  let t := [mkField "a" TString []; mkField "b" TString []] in
  (0 <= 0 < Z.of_nat (length t))%Z
  /\ removeField t 0 = take (Z.to_nat 0) t ++ drop (S (Z.to_nat 0)) t
  /\ S (length (removeField t 0)) = length t.
Proof.
  split; [simpl; lia|].
  apply (removeField_in_range
           [mkField "a" TString []; mkField "b" TString []] 0).
  simpl. lia.
Defined.

Example removeField_example :
  let t := [mkField "a" TString []; mkField "b" TString []] in
  removeField t 0 = [mkField "b" TString []]
  /\ generateSchema (removeField t 0) = Obj [("b", VString "")] None.
Proof. split; reflexivity. Qed.

(** C9.  For an index outside the tree, negative or at least its
    length, [removeField] returns a tree equal to the one given. *)
Theorem removeField_out_of_range (t : list Field) (index : Z) :
  (index < 0 \/ Z.of_nat (length t) <= index)%Z ->
  removeField t index = t.
Proof. intros Hi. apply filter_from_outside. simpl. lia. Qed.

Lemma removeField_out_of_range_witness :
  let t := [mkField "a" TString []; mkField "b" TNumber []] in
  (2 < 0 \/ Z.of_nat (length t) <= 2)%Z /\ removeField t 2 = t.
Proof.
  split; [simpl; lia|].
  apply (removeField_out_of_range
           [mkField "a" TString []; mkField "b" TNumber []] 2).
  simpl. lia.
Defined.

Lemma updateField_Some t i f p :
  t !! i = Some f ->
  updateField t (Z.of_nat i) p = Some (<[i := merge f p]> t).
Proof.
  intros Hi. unfold updateField.
  rewrite in_range_Some by (by eapply lookup_lt_Some). by rewrite Hi.
Qed.

(** C4.  For an index inside the tree, [updateField] puts at that index
    the node whose key, type and children are those of the partial
    record where it has them and those of the old node elsewhere; the
    length and every other index are unchanged.  So a change of type
    alone keeps the children, and a further change to [Nested] gives a
    [Nested] node over the same children; the original tree, when the
    node was [Nested] to begin with. *)
Theorem updateField_frame (t : list Field) (i : nat) (f : Field)
    (p : PartialField) :
  t !! i = Some f ->
  (exists t' g,
     updateField t (Z.of_nat i) p = Some t'
     /\ length t' = length t
     /\ t' !! i = Some g
     /\ key g = default (key f) (pkey p)
     /\ type g = default (type f) (ptype p)
     /\ children g = default (children f) (pchildren p)
     /\ forall j, j <> i -> t' !! j = t !! j)
  /\ forall ty, exists t1 t2,
       updateField t (Z.of_nat i) (mkPartial None (Some ty) None) = Some t1
       /\ t1 !! i = Some (mkField (key f) ty (children f))
       /\ updateField t1 (Z.of_nat i) (mkPartial None (Some TNested) None) = Some t2
       /\ t2 !! i = Some (mkField (key f) TNested (children f))
       /\ (type f = TNested -> t2 = t).
Proof.
  intros Hi. pose proof (lookup_lt_Some _ _ _ Hi) as Hlt. split.
  - exists (<[i := merge f p]> t), (merge f p). split_and!; try done.
    + by apply updateField_Some.
    + apply length_insert.
    + by apply list_lookup_insert_eq.
    + intros j Hj. by apply list_lookup_insert_ne.
  - intros ty.
    set (g := mkField (key f) ty (children f)).
    assert (Hg : <[i := g]> t !! i = Some g) by (by apply list_lookup_insert_eq).
    exists (<[i := g]> t), (<[i := mkField (key f) TNested (children f)]> t).
    split_and!.
    + by rewrite (updateField_Some t i f).
    + done.
    + rewrite (updateField_Some _ i g) by done.
      by rewrite list_insert_insert_eq.
    + by apply list_lookup_insert_eq.
    + intros Hty. apply list_insert_id. rewrite Hi. f_equal.
      destruct f as [k ty' ch]. simpl in *. by subst.
Qed.

Lemma updateField_frame_witness :
  let f := mkField "a" TNested [mkField "x" TNumber []] in
  [f] !! 0 = Some f
  /\ exists t1 t2,
       updateField [f] 0 (mkPartial None (Some TString) None) = Some t1
       /\ t1 !! 0 = Some (mkField "a" TString [mkField "x" TNumber []])
       /\ updateField t1 0 (mkPartial None (Some TNested) None) = Some t2
       /\ t2 !! 0 = Some f
       /\ (type f = TNested -> t2 = [f]).
Proof.
  intros f. split; [reflexivity|].
  refine (proj2 (updateField_frame [f] 0 f (mkPartial (Some "b") None None) _)
            TString).
  reflexivity.
Defined.

(** ** Edit operations on shared objects *)

Lemma read_S d st a :
  Store.read (S d) st a
  = refs ← Store.arrays st !! a; mapM (Store.read_node d st) refs.
Proof. reflexivity. Qed.

Lemma read_node_Some d st r f :
  Store.read_node d st r = Some f <->
  exists n ch, Store.nodes st !! r = Some n
    /\ Store.read d st (Store.nchildren n) = Some ch
    /\ f = mkField (Store.nkey n) (Store.ntype n) ch.
Proof.
  unfold Store.read_node. split.
  - intros H. destruct (Store.nodes st !! r) as [n|]; [|done]. simpl in H.
    destruct (Store.read d st (Store.nchildren n)) as [ch|] eqn:Hch; [|done].
    simpl in H. exists n, ch. split_and!; [done | done | congruence].
  - intros (n & ch & -> & Hch & ->). simpl. by rewrite Hch.
Qed.

Lemma read_Some d st a t :
  Store.read (S d) st a = Some t <->
  exists refs, Store.arrays st !! a = Some refs
    /\ Forall2 (fun r f => Store.read_node d st r = Some f) refs t.
Proof.
  rewrite read_S. split.
  - intros H. destruct (Store.arrays st !! a) as [refs|]; [|done].
    exists refs. split; [done|]. by apply mapM_Some.
  - intros (refs & -> & H). by apply mapM_Some.
Qed.

Lemma read_deeper d st a t :
  Store.read d st a = Some t -> Store.read (S d) st a = Some t.
Proof.
  revert a t. induction d as [|d IH]; intros a t; [done|].
  rewrite !read_Some. intros (refs & Ha & Hall). exists refs. split; [done|].
  eapply Forall2_impl; [exact Hall|]. intros r f.
  rewrite !read_node_Some. intros (n & ch & ? & ? & ?). exists n, ch. auto.
Qed.

Lemma read_node_deeper d st r f :
  Store.read_node d st r = Some f -> Store.read_node (S d) st r = Some f.
Proof.
  rewrite !read_node_Some. intros (n & ch & ? & ? & ?). exists n, ch.
  auto using read_deeper.
Qed.

Lemma read_extends d st st' a t :
  Store.extends st st' ->
  Store.read d st a = Some t -> Store.read d st' a = Some t.
Proof.
  intros [Hn Ha]. revert a t. induction d as [|d IH]; intros a t; [done|].
  rewrite !read_Some. intros (refs & Hrefs & Hall). exists refs. split.
  - by eapply prefix_lookup_Some.
  - eapply Forall2_impl; [exact Hall|]. intros r f.
    rewrite !read_node_Some. intros (n & ch & ? & ? & ?). exists n, ch.
    split_and!; [by eapply prefix_lookup_Some | auto | done].
Qed.

Lemma read_node_extends d st st' r f :
  Store.extends st st' ->
  Store.read_node d st r = Some f -> Store.read_node d st' r = Some f.
Proof.
  intros Hext. rewrite !read_node_Some. intros (n & ch & ? & ? & ?).
  exists n, ch. destruct Hext as [Hn Ha].
  split_and!; [by eapply prefix_lookup_Some | | done].
  by apply (read_extends d st).
Qed.

Lemma extends_alloc_array st refs : Store.extends st (Store.alloc_array st refs).1.
Proof. split; simpl; [done | by apply prefix_app_r]. Qed.

Lemma extends_alloc_node st n : Store.extends st (Store.alloc_node st n).1.
Proof. split; simpl; [by apply prefix_app_r | done]. Qed.

Lemma extends_trans st1 st2 st3 :
  Store.extends st1 st2 -> Store.extends st2 st3 -> Store.extends st1 st3.
Proof. intros [? ?] [? ?]. split; by etrans. Qed.

Lemma lookup_alloc_array st refs :
  Store.arrays (Store.alloc_array st refs).1 !! (Store.alloc_array st refs).2
  = Some refs.
Proof. simpl. by rewrite lookup_app_r, Nat.sub_diag. Qed.

Lemma lookup_alloc_node st n :
  Store.nodes (Store.alloc_node st n).1 !! (Store.alloc_node st n).2 = Some n.
Proof. simpl. by rewrite lookup_app_r, Nat.sub_diag. Qed.

Lemma Forall2_filter_from {A B} (R : A -> B -> Prop) j index l k :
  Forall2 R l k -> Forall2 R (filter_from j index l) (filter_from j index k).
Proof.
  intros H. revert j. induction H as [|x y l k Hxy _ IH]; intros j; simpl.
  - constructor.
  - case_decide; [constructor|]; auto.
Qed.

(** [Store.addField] builds the tree [addField] gives and changes
    nothing the caller holds. *)
Lemma store_addField_refines d st fields t :
  Store.read d st fields = Some t ->
  exists st' a',
    Store.addField st fields = Some (st', a')
    /\ Store.extends st st'
    /\ Store.read (S d) st' a' = Some (addField t)
    /\ Store.read d st' fields = Some t.
Proof.
  intros Hread. destruct d as [|d]; [done|].
  pose proof Hread as (refs & Hrefs & Hall)%read_Some.
  unfold Store.addField. rewrite Hrefs. cbn [mbind option_bind].
  set (st1 := (Store.alloc_array st []).1).
  set (c := (Store.alloc_array st []).2).
  set (st2 := (Store.alloc_node st1 (Store.mkNode "" TString c)).1).
  set (r := (Store.alloc_node st1 (Store.mkNode "" TString c)).2).
  set (st' := (Store.alloc_array st2 (refs ++ [r])).1).
  set (a' := (Store.alloc_array st2 (refs ++ [r])).2).
  assert (H12 : Store.extends st1 st2) by apply extends_alloc_node.
  assert (H2' : Store.extends st2 st') by apply extends_alloc_array.
  assert (H01 : Store.extends st st1) by apply extends_alloc_array.
  assert (Hext : Store.extends st st') by eauto using extends_trans.
  exists st', a'. split; [done|]. split; [done|]. split.
  - apply read_Some. exists (refs ++ [r]). split; [apply lookup_alloc_array|].
    apply Forall2_app.
    + eapply Forall2_impl; [exact Hall|]. intros x f Hx.
      apply read_node_deeper. by apply (read_node_extends d st).
    + constructor; [|constructor]. apply read_node_Some.
      exists (Store.mkNode "" TString c), []. split_and!; [| |done].
      * destruct H2' as [Hn _]. eapply prefix_lookup_Some; [|exact Hn].
        apply lookup_alloc_node.
      * apply read_Some. exists []. split; [|constructor].
        destruct H12 as [_ Ha12], H2' as [_ Ha2'].
        eapply prefix_lookup_Some; [|exact Ha2'].
        eapply prefix_lookup_Some; [|exact Ha12].
        apply lookup_alloc_array.
  - by apply (read_extends _ st).
Qed.

(** [Store.removeField] builds the tree [removeField] gives and changes
    nothing the caller holds. *)
Lemma store_removeField_refines d st fields index t :
  Store.read d st fields = Some t ->
  exists st' a',
    Store.removeField st fields index = Some (st', a')
    /\ Store.extends st st'
    /\ Store.read d st' a' = Some (removeField t index)
    /\ Store.read d st' fields = Some t.
Proof.
  intros Hread. destruct d as [|d]; [done|].
  pose proof Hread as (refs & Hrefs & Hall)%read_Some.
  unfold Store.removeField. rewrite Hrefs. cbn [mbind option_bind].
  set (st' := (Store.alloc_array st (filter_from 0 index refs)).1).
  set (a' := (Store.alloc_array st (filter_from 0 index refs)).2).
  assert (Hext : Store.extends st st') by apply extends_alloc_array.
  exists st', a'. split; [done|]. split; [done|]. split.
  - apply read_Some. exists (filter_from 0 index refs).
    split; [apply lookup_alloc_array|].
    apply Forall2_filter_from. eapply Forall2_impl; [exact Hall|].
    intros x f Hx. by apply (read_node_extends d st).
  - by apply (read_extends _ st).
Qed.

Lemma store_updateField_eq st fields refs i r n u :
  Store.arrays st !! fields = Some refs ->
  refs !! i = Some r ->
  Store.nodes st !! r = Some n ->
  Store.updateField st fields (Z.of_nat i) u
  = Some (Store.mkStore (Store.nodes st ++ [Store.merge n u])
            (Store.arrays st ++ [<[i := length (Store.nodes st)]> refs]),
          length (Store.arrays st)).
Proof.
  intros Hrefs Hr Hn. unfold Store.updateField. rewrite Hrefs. simpl.
  rewrite in_range_Some by (by eapply lookup_lt_Some). simpl.
  rewrite Hr. simpl. rewrite Hn. simpl. do 2 f_equal.
  unfold Store.write_slot. simpl. f_equal.
  rewrite alter_app_r_alt by done. by rewrite Nat.sub_diag.
Qed.

(** [Store.updateField] builds the tree [updateField] gives and changes
    nothing the caller holds: the merged object is a new one. *)
Lemma store_updateField_refines d st fields t i f u p :
  Store.read (S d) st fields = Some t ->
  Store.read_update d st u = Some p ->
  t !! i = Some f ->
  exists st' a',
    Store.updateField st fields (Z.of_nat i) u = Some (st', a')
    /\ Store.extends st st'
    /\ Store.read (S d) st' a' = updateField t (Z.of_nat i) p
    /\ Store.read (S d) st' fields = Some t.
Proof.
  intros Hread Hup Hi.
  pose proof Hread as (refs & Hrefs & Hall)%read_Some.
  destruct (Forall2_lookup_r _ _ _ _ _ Hall Hi) as (r & Hr & Hf).
  pose proof Hf as (n & ch & Hn & Hch & Heq)%read_node_Some.
  rewrite (store_updateField_eq st fields refs i r n u) by done.
  set (g := Store.merge n u).
  set (r' := length (Store.nodes st)).
  set (st' := Store.mkStore _ _).
  assert (Hext : Store.extends st st').
  { split; simpl; by apply prefix_app_r. }
  exists st', (length (Store.arrays st)). split; [done|]. split; [done|].
  split; [|by apply (read_extends _ st)].
  rewrite (updateField_Some t i _ p Hi).
  apply read_Some. exists (<[i := r']> refs). split.
  { simpl. by rewrite lookup_app_r, Nat.sub_diag. }
  apply Forall2_insert.
  - eapply Forall2_impl; [exact Hall|]. intros x y Hx.
    by apply (read_node_extends d st).
  - apply read_node_Some. unfold Store.read_update in Hup.
    assert (Hg : Store.nodes st' !! r' = Some g).
    { simpl. by rewrite lookup_app_r, Nat.sub_diag. }
    destruct (Store.uchildren u) as [c|] eqn:Hc.
    + destruct (Store.read d st c) as [tc|] eqn:Htc; [|done].
      simpl in Hup. injection Hup as <-. exists g, tc. split_and!; [done| |].
      * apply (read_extends d st); [done|]. subst g. simpl. by rewrite Hc.
      * subst g. rewrite Heq. unfold merge, Store.merge. simpl. done.
    + injection Hup as <-. exists g, ch. split_and!; [done| |].
      * apply (read_extends d st); [done|]. subst g. simpl. by rewrite Hc.
      * subst g. rewrite Heq. unfold merge, Store.merge. simpl. done.
Qed.

Lemma store_updateChildren_eq st fields refs i r n c :
  Store.arrays st !! fields = Some refs ->
  refs !! i = Some r ->
  Store.nodes st !! r = Some n ->
  Store.updateChildren st fields (Z.of_nat i) c
  = Some ((Store.alloc_array (Store.write_children st r c) refs).1,
          length (Store.arrays st)).
Proof.
  intros Hrefs Hr Hn. unfold Store.updateChildren. rewrite Hrefs. simpl.
  rewrite in_range_Some by (by eapply lookup_lt_Some). simpl.
  rewrite Hr. simpl. by rewrite Hn.
Qed.

(** Outside the array the assignment to [undefined.children] throws. *)
Lemma store_updateChildren_out_of_range st fields refs index c :
  Store.arrays st !! fields = Some refs ->
  (index < 0 \/ Z.of_nat (length refs) <= index)%Z ->
  Store.updateChildren st fields index c = None.
Proof.
  intros Hrefs Hout. unfold Store.updateChildren. rewrite Hrefs. simpl.
  by rewrite in_range_None.
Qed.

(** After [Store.updateChildren] the caller's array and the returned
    one hold the same references in the same store: whatever the call
    changed is changed in the caller's tree too. *)
Lemma store_updateChildren_aliases st fields index c st' a' :
  Store.updateChildren st fields index c = Some (st', a') ->
  Store.arrays st' !! a' = Store.arrays st' !! fields
  /\ forall d, Store.read d st' a' = Store.read d st' fields.
Proof.
  unfold Store.updateChildren. intros H.
  destruct (Store.arrays st !! fields) as [refs|] eqn:Hrefs; [|done].
  simpl in H. destruct (in_range index refs) as [i|]; [|done]. simpl in H.
  destruct (refs !! i) as [r|]; [|done]. simpl in H.
  destruct (Store.nodes st !! r) as [n|]; [|done]. simpl in H.
  injection H as <- <-.
  assert (Ha : Store.arrays (Store.write_children
                 (Store.mkStore (Store.nodes st) (Store.arrays st ++ [refs])) r c)
               !! length (Store.arrays st)
             = Store.arrays (Store.write_children
                 (Store.mkStore (Store.nodes st) (Store.arrays st ++ [refs])) r c)
               !! fields).
  { simpl. rewrite lookup_app_r, Nat.sub_diag by done.
    by rewrite (lookup_app_l_Some _ _ _ _ Hrefs). }
  split; [exact Ha|]. intros [|d]; [done|]. by rewrite !read_S, Ha.
Qed.

Lemma read_write_children_unvisited d st r c a :
  r ∉ Store.visited d st a ->
  Store.read d (Store.write_children st r c) a = Store.read d st a.
Proof.
  revert a. induction d as [|d IH]; intros a Hr; [done|].
  rewrite !read_S. cbn [Store.visited] in Hr.
  change (Store.arrays (Store.write_children st r c)) with (Store.arrays st).
  destruct (Store.arrays st !! a) as [refs|]; [|done]. simpl.
  apply not_elem_of_app in Hr as [Htop Hdeep].
  apply Forall_mapM_ext, Forall_forall. intros x Hx.
  unfold Store.read_node. cbn [Store.write_children Store.nodes].
  rewrite list_lookup_alter_ne by (by intros ->).
  destruct (Store.nodes st !! x) as [n|] eqn:Hn; [|done]. simpl.
  rewrite IH; [done|]. intros Hin. apply Hdeep.
  apply list_elem_of_bind. exists x. by rewrite Hn.
Qed.

Lemma updateChildren_Some t i f c :
  t !! i = Some f ->
  updateChildren t (Z.of_nat i) c = Some (<[i := mkField (key f) (type f) c]> t).
Proof.
  intros Hi. unfold updateChildren.
  rewrite in_range_Some by (by eapply lookup_lt_Some). by rewrite Hi.
Qed.

(** Over a store in which the tree read from [fields] meets no object
    twice, and the new children do not contain the node itself, the
    array [Store.updateChildren] returns reads as [updateChildren]
    gives, and so does the caller's array: its node was written to. *)
Lemma store_updateChildren_refines d st fields refs t i r f c tc :
  Store.read (S d) st fields = Some t ->
  Store.read d st c = Some tc ->
  Store.arrays st !! fields = Some refs ->
  refs !! i = Some r ->
  t !! i = Some f ->
  NoDup (Store.visited (S d) st fields) ->
  r ∉ Store.visited d st c ->
  exists st' a',
    Store.updateChildren st fields (Z.of_nat i) c = Some (st', a')
    /\ Store.read (S d) st' a' = updateChildren t (Z.of_nat i) tc
    /\ Store.read (S d) st' fields = updateChildren t (Z.of_nat i) tc.
Proof.
  intros Hread Hc Hrefs Hr Hi Hnd Hsep.
  pose proof Hread as (refs' & Hrefs' & Hall)%read_Some.
  rewrite Hrefs in Hrefs'. injection Hrefs' as <-.
  pose proof (Forall2_lookup_lr _ _ _ _ _ _ Hall Hr Hi)
    as (n & ch & Hn & Hch & Heq)%read_node_Some.
  pose proof (store_updateChildren_eq st fields refs i r n c Hrefs Hr Hn) as Hrun.
  set (stw := Store.write_children st r c) in *.
  set (st' := (Store.alloc_array stw refs).1) in *.
  exists st', (length (Store.arrays st)). split; [done|].
  cut (Store.read (S d) st' (length (Store.arrays st))
       = updateChildren t (Z.of_nat i) tc).
  { intros Hres. split; [done|]. rewrite <- Hres. symmetry.
    by apply (store_updateChildren_aliases _ _ _ _ _ _ Hrun). }
  rewrite (updateChildren_Some t i f tc Hi).
  cbn [Store.visited] in Hnd. rewrite Hrefs in Hnd.
  apply NoDup_app in Hnd as (Hnd_top & Hdisj & _).
  apply read_Some. exists refs. split.
  { subst st'. simpl. by rewrite lookup_app_r, Nat.sub_diag. }
  apply Forall2_same_length_lookup. split.
  { rewrite length_insert. by eapply Forall2_length. }
  intros j x y Hx Hy.
  apply (read_node_extends d stw); [apply extends_alloc_array|].
  apply read_node_Some. destruct (decide (j = i)) as [->|Hne].
  - rewrite list_lookup_insert_eq in Hy by (by eapply lookup_lt_Some).
    assert (x = r) as -> by congruence. injection Hy as <-.
    exists (Store.mkNode (Store.nkey n) (Store.ntype n) c), tc. split_and!.
    + subst stw. simpl. by rewrite list_lookup_alter_eq, Hn.
    + simpl. subst stw. by rewrite read_write_children_unvisited.
    + by rewrite Heq.
  - rewrite list_lookup_insert_ne in Hy by done.
    pose proof (Forall2_lookup_lr _ _ _ _ _ _ Hall Hx Hy)
      as (m & chm & Hm & Hchm & ->)%read_node_Some.
    assert (Hxr : r <> x).
    { intros <-. apply Hne. by eapply NoDup_lookup. }
    exists m, chm. split_and!; [| |done].
    + subst stw. simpl. by rewrite list_lookup_alter_ne.
    + subst stw. rewrite read_write_children_unvisited; [done|].
      intros Hin. apply (Hdisj r); [by eapply list_elem_of_lookup_2|].
      apply list_elem_of_bind. exists x. rewrite Hm.
      split; [done | by eapply list_elem_of_lookup_2].
Qed.

(** ** The output text *)







Section EnumerateMap.
Context {A B : Type} (f : A -> B).

Let F (e : string * A) : string * B := (fst e, f (snd e)).
Let G (x : N * (string * A)) : N * (string * B) := (fst x, F (snd x)).

Lemma index_entries_map ps : index_entries (map F ps) = map G (index_entries ps).
Proof.
  unfold index_entries. induction ps as [|e ps IH]; [done|].
  simpl. destruct (array_index (fst e)); simpl; [f_equal|]; exact IH.
Qed.

Lemma insert_by_index_map n e l :
  insert_by_index n (F e) (map G l) = map G (insert_by_index n e l).
Proof.
  induction l as [|[m e'] l IH]; [done|]. cbn [map insert_by_index G fst snd].
  destruct (n <=? m)%N; [done|]. cbn [map]. by rewrite <- IH.
Qed.

Lemma sort_by_index_map l : sort_by_index (map G l) = map G (sort_by_index l).
Proof.
  induction l as [|[n e] l IH]; [done|]. cbn [map sort_by_index G fst snd].
  by rewrite IH, insert_by_index_map.
Qed.

Lemma named_entries_map ps : named_entries (map F ps) = map F (named_entries ps).
Proof.
  unfold named_entries. induction ps as [|e ps IH]; [done|].
  cbn [map]. rewrite !filter_cons. change (fst (F e)) with (fst e).
  case_decide; cbn [map]; by rewrite IH.
Qed.

Lemma enumerate_map ps : enumerate (map F ps) = map F (enumerate ps).
Proof.
  unfold enumerate.
  rewrite index_entries_map, sort_by_index_map, named_entries_map, map_app.
  f_equal. rewrite !map_map. by apply map_ext.
Qed.
End EnumerateMap.










(** ** Reading the output text back *)

















Section ShownKeys.














End ShownKeys.





Lemma jsonOutput_empty : jsonOutput [] = Placeholder.
Proof. reflexivity. Qed.

(** C3 (defect of the code).  The claim has [updateChildren] leave the
    tree it is given as it was.  Start from the one node
    [{key: "a", type: "Nested", children: []}], array 0 over object 0
    whose children are array 1.  "Add Field" inside the nested editor
    makes the new children [[defaultField()]] and calls
    [updateChildren(0, newChildren)].  The returned array reads as the
    claim says, and so does the array the caller still holds: object 0
    is shared by both and was assigned to.  [updateField] copies the
    object first ([store_updateField_refines]). *)
Theorem updateChildren_writes_to_input :
  let st0 := Store.mkStore [Store.mkNode "a" TNested 1] [[0]; []] in
  let new_tree := [mkField "a" TNested [mkField "" TString []]] in
  exists st1 c st2 a',
    Store.addField st0 1 = Some (st1, c)
    /\ Store.updateChildren st1 0 0 c = Some (st2, a')
    /\ Store.read 3 st1 0 = Some [mkField "a" TNested []]
    /\ a' <> 0
    /\ Store.read 3 st2 a' = Some new_tree
    /\ Store.read 3 st2 0 = Some new_tree.
Proof.
  intros st0 new_tree. eexists _, _, _, _.
  split; [reflexivity|]. split; [reflexivity|]. split; [reflexivity|].
  split; [discriminate|]. split; reflexivity.
Qed.

(** ** The examples of the specification *)

Example derive_name_age :
  generateSchema [mkField "name" TString []; mkField "age" TNumber []]
  = Obj [("name", VString ""); ("age", VNumber 0)] None.
Proof. reflexivity. Qed.

Example derive_address_city :
  generateSchema [mkField "address" TNested [mkField "city" TString []]]
  = Obj [("address", VObject (Obj [("city", VString "")] None))] None.
Proof. reflexivity. Qed.

Example derive_unnamed_dropped :
  generateSchema [mkField "" TString []; mkField "x" TNumber []]
  = Obj [("x", VNumber 0)] None.
Proof. reflexivity. Qed.

Example derive_after_retype :
  updateField [mkField "a" TString []] 0 (mkPartial None (Some TNested) None)
    = Some [mkField "a" TNested []]
  /\ generateSchema [mkField "a" TNested []]
     = Obj [("a", VObject empty_object)] None.
Proof. split; reflexivity. Qed.

Example derive_last_write_wins :
  generateSchema [mkField "a" TString []; mkField "b" TString []; mkField "a" TNumber []]
  = Obj [("a", VNumber 0); ("b", VString "")] None.
Proof. reflexivity. Qed.

(** A [Nested] node named ["__proto__"] becomes the prototype of the
    derived object, which gets no property of its own from it. *)
Example derive_proto_nested :
  generateSchema [mkField "__proto__" TNested [mkField "x" TNumber []]]
  = Obj [] (Some (Obj [("x", VNumber 0)] None)).
Proof. reflexivity. Qed.

(* ================================================================= *)
(** * Further properties of the code *)

(** ** How the edit operations compose *)

(** X1.  Removing the field [addField] has just appended gives back the
    tree. *)
Theorem removeField_addField (t : list Field) :
  removeField (addField t) (Z.of_nat (length t)) = t.
Proof.
  unfold removeField, addField.
  pose proof (filter_from_inside (t ++ [defaultField]) 0 (length t)) as H.
  simpl in H. rewrite H.
  - rewrite take_app_length. rewrite drop_ge; [by rewrite app_nil_r|].
    rewrite length_app. simpl. lia.
  - rewrite length_app. simpl. lia.
Qed.

Lemma merge_merge f p : merge (merge f p) p = merge f p.
Proof. destruct p as [[k|] [ty|] [ch|]]; reflexivity. Qed.

Lemma merge_own_values f :
  merge f (mkPartial (Some (key f)) (Some (type f)) (Some (children f))) = f.
Proof. by destruct f. Qed.

Lemma merge_nothing f : merge f (mkPartial None None None) = f.
Proof. by destruct f. Qed.

(** X2.  Inside the tree, an update made twice is the update made once, and
    an update that carries nothing, or the values the node already has,
    gives back the tree. *)
Theorem updateField_idempotent (t : list Field) (i : nat) (f : Field)
    (p : PartialField) :
  t !! i = Some f ->
  (exists t1,
     updateField t (Z.of_nat i) p = Some t1
     /\ updateField t1 (Z.of_nat i) p = Some t1)
  /\ updateField t (Z.of_nat i) (mkPartial None None None) = Some t
  /\ updateField t (Z.of_nat i)
       (mkPartial (Some (key f)) (Some (type f)) (Some (children f))) = Some t.
Proof.
  intros Hi. pose proof (lookup_lt_Some _ _ _ Hi) as Hlt. split_and!.
  - exists (<[i := merge f p]> t). split; [by apply updateField_Some|].
    rewrite (updateField_Some _ i (merge f p))
      by (by apply list_lookup_insert_eq).
    by rewrite merge_merge, list_insert_insert_eq.
  - rewrite (updateField_Some t i f) by done.
    by rewrite merge_nothing, list_insert_id.
  - rewrite (updateField_Some t i f) by done.
    by rewrite merge_own_values, list_insert_id.
Qed.

Lemma updateField_idempotent_witness :
  let f := mkField "a" TString [] in
  let p := mkPartial (Some "b") None None in
  [f] !! 0 = Some f
  /\ exists t1,
       updateField [f] (Z.of_nat 0) p = Some t1
       /\ updateField t1 (Z.of_nat 0) p = Some t1.
Proof.
  split; [reflexivity|].
  refine (proj1 (updateField_idempotent [mkField "a" TString []] 0
                   (mkField "a" TString []) (mkPartial (Some "b") None None) _)).
  reflexivity.
Defined.

(** ** More on the derivation *)

Lemma derive_from_unnamed schema t :
  derive_from schema (filter (fun f => key f <> "") t) = derive_from schema t.
Proof.
  revert schema. induction t as [|f t IH]; intros s; [reflexivity|].
  rewrite filter_cons. destruct (decide (key f <> "")) as [Hk|Hk].
  - rewrite !derive_from_cons. apply IH.
  - rewrite derive_from_cons, assign_field_empty_key; [apply IH|].
    by destruct (decide (key f = "")).
Qed.

(** X3.  The fields without a name can be left out anywhere in the tree's
    top level: the derived object is the same. *)
Theorem generateSchema_unnamed_irrelevant (t : list Field) :
  generateSchema (filter (fun f => key f <> "") t) = generateSchema t.
Proof. apply derive_from_unnamed. Qed.

Lemma length_first_occurrences l : length (first_occurrences l) <= length l.
Proof.
  induction l as [|k l IH]; simpl; [lia|].
  pose proof (length_filter (fun x => x <> k) (first_occurrences l)). lia.
Qed.

(** X5.  The derived object never lists a key twice, never lists the empty
    key, and has at most as many keys as the level has fields. *)
Theorem generateSchema_keys_distinct (t : list Field) :
  NoDup (ownKeys (generateSchema t))
  /\ ("" ∉ ownKeys (generateSchema t))
  /\ length (ownKeys (generateSchema t)) <= length t.
Proof.
  split_and!.
  - apply generateSchema_keys_NoDup.
  - rewrite generateSchema_key_set. by intros [[? _] _].
  - unfold ownKeys. rewrite length_map, enumerate_perm, <- (length_map fst).
    rewrite generateSchema_keys.
    etrans; [apply length_first_occurrences|].
    etrans; [apply length_filter|]. by rewrite length_map.
Qed.

(** X6.  For a key that is neither empty nor ["__proto__"]: the derived
    object has it exactly when a field of the level carries it, and
    holds under it the value of the last such field. *)
Theorem generateSchema_last_write_wins (t : list Field) (k : string) :
  k <> "" ->
  k <> "__proto__" ->
  (k ∈ ownKeys (generateSchema t) <-> k ∈ map key t)
  /\ get_own (generateSchema t) k = field_value <$> last_with_key k t.
Proof.
  intros He Hp. assert (Hs : stored k) by done. split.
  - rewrite generateSchema_key_set. tauto.
  - by rewrite generateSchema_get_own, decide_True.
Qed.

Lemma generateSchema_last_write_wins_witness :
  let t := [mkField "a" TString []; mkField "b" TString []; mkField "a" TNumber []] in
  "a" <> "" /\ "a" <> "__proto__"
  /\ ("a" ∈ ownKeys (generateSchema t) <-> "a" ∈ map key t)
  /\ get_own (generateSchema t) "a" = field_value <$> last_with_key "a" t.
Proof.
  split; [discriminate|]. split; [discriminate|].
  apply (generateSchema_last_write_wins
           [mkField "a" TString []; mkField "b" TString []; mkField "a" TNumber []]
           "a"); discriminate.
Defined.

(** X7.  One pass of the loop over a field whose key is neither empty nor
    ["__proto__"]: the entry under the key becomes the field's value,
    every other entry stays, and the key keeps its place when the object
    had it and goes to the end of the creation order when not. *)
Theorem forEach_callback_step (schema : object) (f : Field) :
  key f <> "" ->
  key f <> "__proto__" ->
  get_own (forEach_callback schema f) (key f) = Some (field_value f)
  /\ (forall k, k <> key f ->
        get_own (forEach_callback schema f) k = get_own schema k)
  /\ map fst (own_props (forEach_callback schema f))
     = (if decide (key f ∈ map fst (own_props schema))
        then map fst (own_props schema)
        else map fst (own_props schema) ++ [key f])
  /\ prototype (forEach_callback schema f) = prototype schema.
Proof.
  intros He Hp. assert (Hs : stored (key f)) by done.
  rewrite <- assign_field_callback. split_and!.
  - by apply assign_field_get_own.
  - intros k Hk. by apply assign_field_get_other.
  - rewrite assign_field_own, decide_True by done. apply keys_put.
  - unfold assign_field, set_property. by rewrite !decide_False.
Qed.

Lemma forEach_callback_step_witness :
  let schema := Obj [("a", VString ""); ("b", VNumber 0)] None in
  let f := mkField "a" TNested [] in
  key f <> "" /\ key f <> "__proto__"
  /\ get_own (forEach_callback schema f) (key f) = Some (field_value f)
  /\ map fst (own_props (forEach_callback schema f)) = ["a"; "b"].
Proof.
  split; [discriminate|]. split; [discriminate|].
  pose proof (forEach_callback_step
    (Obj [("a", VString ""); ("b", VNumber 0)] None)
    (mkField "a" TNested [])) as H.
  destruct H as (H1 & _ & H3 & _); [discriminate | discriminate |].
  split; [exact H1 | exact H3].
Defined.

(** ** More on the output view *)

(** X8.  After "Add Field" the output tab shows the JSON of the object
    derived before the click: the text it showed when there was a field
    already, and [{}] in place of the placeholder when there was none. *)
Theorem jsonOutput_after_addField (t : list Field) :
  jsonOutput (addField t) = Code (JSON_stringify (VObject (generateSchema t)) 2)
  /\ (t <> [] -> jsonOutput (addField t) = jsonOutput t)
  /\ jsonOutput (addField []) = Code "{}".
Proof.
  assert (Hadd : jsonOutput (addField t)
                 = Code (JSON_stringify (VObject (generateSchema t)) 2)).
  { unfold jsonOutput, hasFields.
    assert (Hgen : generateSchema (addField t) = generateSchema t).
    { unfold addField. rewrite !generateSchema_fold, derive_from_app.
      simpl. by rewrite assign_field_empty_key. }
    assert (Hlen : List.length (addField t) = S (List.length t)).
    { unfold addField. rewrite length_app. simpl. lia. }
    by rewrite Hgen, Hlen. }
  split; [exact Hadd|]. split; [|reflexivity].
  intros Hne. rewrite Hadd. unfold jsonOutput, hasFields.
  by destruct t.
Qed.

(** X9.  With fields that are all unnamed the output tab shows [{}], not the
    placeholder: it is the tree that is tested for fields, not the
    derived object for keys. *)
Theorem jsonOutput_unnamed_fields (t : list Field) :
  t <> [] ->
  Forall (fun f => key f = "") t ->
  jsonOutput t = Code "{}".
Proof.
  intros Hne Hall. unfold jsonOutput, hasFields.
  rewrite generateSchema_no_keys by done. by destruct t.
Qed.

Lemma jsonOutput_unnamed_fields_witness :
  let t := [mkField "" TString []; mkField "" TNested [mkField "x" TNumber []]] in
  t <> [] /\ Forall (fun f => key f = "") t /\ jsonOutput t = Code "{}".
Proof.
  split; [discriminate|]. split; [by repeat constructor|].
  apply (jsonOutput_unnamed_fields
           [mkField "" TString []; mkField "" TNested [mkField "x" TNumber []]]);
    [discriminate | by repeat constructor].
Defined.

(** ** What the editor shows *)

Lemma Field_tree_ind (P : Field -> Prop) :
  (forall k ty ch, Forall P ch -> P (mkField k ty ch)) ->
  forall f, P f.
Proof.
  intros step. fix IH 1. intros [k ty ch]. apply step.
  induction ch as [|c ch IHch]; constructor; [apply IH | exact IHch].
Qed.

Lemma card_unfold depth index f :
  card depth index f
  = mkCard index (cardClassName depth) (key f) (type f)
      (selectClassName (type f))
      match type f with
      | TNested => Some (cards_from (S depth) 0 (children f))
      | _ => None
      end.
Proof.
  destruct f as [k ty ch]. destruct ty; [reflexivity | reflexivity |].
  cbn [card key type children]. do 2 f_equal.
  generalize 0. induction ch as [|c ch IH]; intros i; [done|].
  cbn [cards_from]. by rewrite <- IH.
Qed.

Lemma card_ext depth index f g :
  key f = key g ->
  type f = type g ->
  (type g = TNested ->
   cards_from (S depth) 0 (children f) = cards_from (S depth) 0 (children g)) ->
  card depth index f = card depth index g.
Proof.
  intros Hk Hty Hch. rewrite !card_unfold, Hk, Hty.
  destruct (type g); [done | done |]. by rewrite Hch.
Qed.

Lemma cards_from_insert depth i j t f g :
  t !! j = Some f ->
  (forall index, card depth index g = card depth index f) ->
  cards_from depth i (<[j := g]> t) = cards_from depth i t.
Proof.
  intros Hj Hcard. revert i j Hj. induction t as [|x t IH]; intros i j Hj; [done|].
  destruct j as [|j]; simpl in *.
  - injection Hj as ->. by rewrite Hcard.
  - f_equal. by apply IH.
Qed.

Lemma cards_from_same_entries depth depth' t :
  Forall (fun f => forall d d' i i' f',
            card d i f = card d' i' f' -> same_entry f f') t ->
  forall i i' t',
    cards_from depth i t = cards_from depth' i' t' -> Forall2 same_entry t t'.
Proof.
  induction 1 as [|f t Hf _ IH]; intros i i' [|f' t'] Heq;
    [constructor | discriminate Heq | discriminate Heq |].
  cbn [cards_from] in Heq. injection Heq as Hcard Hrest.
  constructor; [by eapply Hf | by eapply IH].
Qed.

Lemma card_same_entry f :
  forall d d' i i' f', card d i f = card d' i' f' -> same_entry f f'.
Proof.
  induction f as [k ty ch IH] using Field_tree_ind. intros d d' i i' f' Heq.
  rewrite !card_unfold in Heq. cbn [key type children] in Heq.
  injection Heq as _ _ Hk Hty _ Hnested. split; [done|].
  destruct f' as [k' ty' ch']. cbn [key type children] in *. subst k' ty'.
  destruct ty; [done | done |].
  rewrite !field_value_nested by done. cbn [children]. f_equal.
  injection Hnested as Hcards. rewrite !generateSchema_fold.
  apply derive_from_same_entries.
  by apply (cards_from_same_entries (S d) (S d') ch IH 0 0).
Qed.

(** X10.  Two trees the editor shows alike give the same derived object and
    the same output text: the JSON depends on nothing the editor does
    not show. *)
Theorem same_view_same_output (d d' : nat) (t t' : list Field) :
  FieldEditor d t = FieldEditor d' t' ->
  generateSchema t = generateSchema t' /\ jsonOutput t = jsonOutput t'.
Proof.
  intros Heq.
  assert (Hall : Forall2 same_entry t t').
  { apply (cards_from_same_entries d d' t) with (i := 0) (i' := 0); [|done].
    apply Forall_forall. intros f _. apply card_same_entry. }
  assert (Hgen : generateSchema t = generateSchema t').
  { rewrite !generateSchema_fold. by apply derive_from_same_entries. }
  split; [done|]. unfold jsonOutput, hasFields.
  by rewrite Hgen, (Forall2_length _ _ _ Hall).
Qed.

Lemma same_view_same_output_witness :
  let t := [mkField "a" TString [mkField "hidden" TNumber []]] in
  let t' := [mkField "a" TString []] in
  FieldEditor 0 t = FieldEditor 0 t'
  /\ generateSchema t = generateSchema t' /\ jsonOutput t = jsonOutput t'.
Proof.
  split; [reflexivity|].
  apply (same_view_same_output 0 0
           [mkField "a" TString [mkField "hidden" TNumber []]]
           [mkField "a" TString []]).
  reflexivity.
Defined.

(** X11.  The children of a field that is not [Nested] are not shown: the
    editor looks the same whatever they are replaced by, at any depth. *)
Theorem dormant_children_not_shown (d : nat) (t : list Field)
    (path : list nat) (c : list Field) (f : Field) :
  node_at path t = Some f ->
  type f <> TNested ->
  FieldEditor d (replace_children path c t) = FieldEditor d t.
Proof.
  unfold FieldEditor. generalize 0 as i.
  revert d t. induction path as [|j rest IH]; intros d t i Hat Hty; [done|].
  cbn [node_at replace_children] in *.
  destruct (t !! j) as [g|] eqn:Hj; [|done].
  eapply cards_from_insert; [done|]. intros index.
  apply card_ext; [done | done |]. cbn [type children]. intros Hg.
  destruct rest as [|j' rest].
  - by simplify_eq.
  - by apply IH.
Qed.

Lemma dormant_children_not_shown_witness :
  let t := [mkField "a" TNested [mkField "x" TString []; mkField "b" TNumber []]] in
  let c := [mkField "hidden" TNumber []] in
  node_at [0; 1] t = Some (mkField "b" TNumber [])
  /\ FieldEditor 0 (replace_children [0; 1] c t) = FieldEditor 0 t.
Proof.
  split; [reflexivity|].
  apply (dormant_children_not_shown 0 _ [0; 1] _ (mkField "b" TNumber []));
    [reflexivity | discriminate].
Defined.

(** ** What the controls do *)



(** An editor uses its [setFields] last and once: what it does with any
    [setFields] is what it does with the state setter, handed on. *)
Lemma FieldEditor_event_setFields path a fields setFields :
  FieldEditor_event path a fields setFields
  = match FieldEditor_event path a fields SetState with
    | SetState newFields => setFields newFields
    | NoControl => NoControl
    | Fails => Fails
    end.
Proof.
  revert fields setFields. induction path as [|i rest IH]; intros fields k.
  - cbn [FieldEditor_event]. destruct (act a fields) as [[nf|]|]; done.
  - cbn [FieldEditor_event]. destruct (fields !! i) as [f|]; [|done].
    destruct (type f); [done | done |].
    rewrite IH. rewrite (IH _ (fun nc => hand_on _ SetState)).
    destruct (FieldEditor_event rest a (children f) SetState) as [| |c];
      [done | done |].
    by destruct (updateChildren fields (Z.of_nat i) c).
Qed.


Lemma nested_event_iff (i : nat) (rest : list nat) (a : action)
    (t t' : list Field) :
  JsonSchemaBuilder_event (i :: rest) a t = SetState t' <->
  exists f c,
    t !! i = Some f
    /\ type f = TNested
    /\ JsonSchemaBuilder_event rest a (children f) = SetState c
    /\ t' = <[i := mkField (key f) TNested c]> t.
Proof.
  unfold JsonSchemaBuilder_event. cbn [FieldEditor_event]. split.
  - destruct (t !! i) as [f|] eqn:Hi; [|done].
    destruct (type f) eqn:Hty; [done | done |].
    rewrite FieldEditor_event_setFields.
    destruct (FieldEditor_event rest a (children f) SetState) as [| |c] eqn:Hc;
      [done | done |].
    rewrite (updateChildren_Some t i f c) by done. cbn [hand_on].
    intros [= <-]. exists f, c. by rewrite Hty.
  - intros (f & c & Hi & Hty & Hc & ->). rewrite Hi, Hty.
    rewrite FieldEditor_event_setFields, Hc.
    rewrite (updateChildren_Some t i f c) by done.
    cbn [hand_on]. by rewrite Hty.
Qed.

(** X13.  A control in a nested editor sets the state to the tree whose field
    at the editor's position has, for children, what the same control
    would set standing alone over those children; and only a [Nested]
    field has such controls. *)
Theorem nested_control_threads_back (i : nat) (rest : list nat) (a : action)
    (t t' : list Field) :
  JsonSchemaBuilder_event (i :: rest) a t = SetState t' <->
  exists f c,
    t !! i = Some f
    /\ type f = TNested
    /\ JsonSchemaBuilder_event rest a (children f) = SetState c
    /\ t' = <[i := mkField (key f) TNested c]> t.
Proof. apply nested_event_iff. Qed.

Lemma ownKeys_same_keys o o' :
  map fst (own_props o) = map fst (own_props o') -> ownKeys o = ownKeys o'.
Proof.
  intros Hk. unfold ownKeys.
  assert (Hunit : forall ps : list (string * value),
    map fst (enumerate ps)
    = map fst (enumerate (map (fun k => (k, tt)) (map fst ps)))).
  { intros ps. rewrite map_map.
    rewrite (enumerate_map (fun _ : value => tt) ps), map_map. done. }
  by rewrite (Hunit (own_props o)), (Hunit (own_props o')), Hk.
Qed.

Lemma last_with_key_insert k t i f g :
  t !! i = Some f -> key f <> k -> key g <> k ->
  last_with_key k (<[i := g]> t) = last_with_key k t.
Proof.
  intros Hi Hf Hg. unfold last_with_key. f_equal.
  rewrite insert_take_drop by (by eapply lookup_lt_Some).
  rewrite <- (take_drop_middle t i f) at 3 by done.
  by rewrite !filter_app, !filter_cons_False.
Qed.

(** X14.  A control in the nested editor of a field leaves the level above as
    long as it was, every other field of it as it was, and the field's
    own key and type; so the derived object keeps its keys in their
    order, and its values under every key but the field's. *)
Theorem nested_control_local (i : nat) (rest : list nat) (a : action)
    (t t' : list Field) (f : Field) :
  JsonSchemaBuilder_event (i :: rest) a t = SetState t' ->
  t !! i = Some f ->
  length t' = length t
  /\ (forall j, j <> i -> t' !! j = t !! j)
  /\ map key t' = map key t
  /\ map type t' = map type t
  /\ ownKeys (generateSchema t') = ownKeys (generateSchema t)
  /\ forall k, k <> key f ->
       get_own (generateSchema t') k = get_own (generateSchema t) k.
Proof.
  intros Hev Hi.
  apply nested_event_iff in Hev as (f' & c & Hi' & Hty & _ & ->).
  assert (f' = f) as -> by congruence. clear Hi'.
  set (g := mkField (key f) TNested c).
  assert (Hkeys : map key (<[i := g]> t) = map key t).
  { rewrite list_fmap_insert. apply list_insert_id.
    by rewrite list_lookup_fmap, Hi. }
  split_and!.
  - apply length_insert.
  - intros j Hj. by apply list_lookup_insert_ne.
  - done.
  - rewrite list_fmap_insert. apply list_insert_id.
    rewrite list_lookup_fmap, Hi. subst g. simpl. by rewrite Hty.
  - apply ownKeys_same_keys. by rewrite !generateSchema_keys, Hkeys.
  - intros k Hk. rewrite !generateSchema_get_own.
    case_decide; [|done]. f_equal. by apply (last_with_key_insert k t i f g).
Qed.

Lemma nested_control_local_witness :
  let f := mkField "a" TNested [] in
  let t := [f; mkField "b" TNumber []] in
  let t' := [mkField "a" TNested [mkField "" TString []]; mkField "b" TNumber []] in
  JsonSchemaBuilder_event [0] ClickAdd t = SetState t'
  /\ t !! 0 = Some f
  /\ ownKeys (generateSchema t') = ownKeys (generateSchema t).
Proof.
  split; [reflexivity|]. split; [reflexivity|].
  refine (proj1 (proj2 (proj2 (proj2 (proj2
    (nested_control_local 0 [] ClickAdd
       [mkField "a" TNested []; mkField "b" TNumber []]
       [mkField "a" TNested [mkField "" TString []]; mkField "b" TNumber []]
       (mkField "a" TNested []) _ _)))))); reflexivity.
Defined.

(** ** Shared objects: what the operations leave alone *)

Lemma store_witness_read :
  Store.read 2 (Store.mkStore [Store.mkNode "a" TNested 1] [[0]; []]) 0
  = Some [mkField "a" TNested []].
Proof. reflexivity. Qed.

(** X16.  [addField] on shared objects returns an array that reads as the
    tree with the default field appended, and every array of the store
    reads after the call as it read before. *)
Theorem store_addField_copy_on_write (d : nat) (st : Store.store)
    (fields : nat) (t : list Field) :
  Store.read d st fields = Some t ->
  exists st' a',
    Store.addField st fields = Some (st', a')
    /\ Store.read (S d) st' a' = Some (addField t)
    /\ forall a t0, Store.read d st a = Some t0 -> Store.read d st' a = Some t0.
Proof.
  intros Hread.
  destruct (store_addField_refines d st fields t Hread)
    as (st' & a' & Hrun & Hext & Hnew & _).
  exists st', a'. split_and!; [done | done |].
  intros a t0. by apply read_extends.
Qed.

Lemma store_addField_copy_on_write_witness :
  let st := Store.mkStore [Store.mkNode "a" TNested 1] [[0]; []] in
  Store.read 2 st 0 = Some [mkField "a" TNested []]
  /\ exists st' a',
       Store.addField st 0 = Some (st', a')
       /\ Store.read 3 st' a' = Some (addField [mkField "a" TNested []])
       /\ forall a t0, Store.read 2 st a = Some t0 -> Store.read 2 st' a = Some t0.
Proof.
  split; [reflexivity|].
  apply (store_addField_copy_on_write 2
           (Store.mkStore [Store.mkNode "a" TNested 1] [[0]; []]) 0
           [mkField "a" TNested []]).
  reflexivity.
Defined.

(** X17.  [removeField] on shared objects returns an array that reads as the
    tree without the field, and every array of the store reads after
    the call as it read before. *)
Theorem store_removeField_copy_on_write (d : nat) (st : Store.store)
    (fields : nat) (index : Z) (t : list Field) :
  Store.read d st fields = Some t ->
  exists st' a',
    Store.removeField st fields index = Some (st', a')
    /\ Store.read d st' a' = Some (removeField t index)
    /\ forall a t0, Store.read d st a = Some t0 -> Store.read d st' a = Some t0.
Proof.
  intros Hread.
  destruct (store_removeField_refines d st fields index t Hread)
    as (st' & a' & Hrun & Hext & Hnew & _).
  exists st', a'. split_and!; [done | done |].
  intros a t0. by apply read_extends.
Qed.

Lemma store_removeField_copy_on_write_witness :
  let st := Store.mkStore [Store.mkNode "a" TNested 1] [[0]; []] in
  Store.read 2 st 0 = Some [mkField "a" TNested []]
  /\ exists st' a',
       Store.removeField st 0 0 = Some (st', a')
       /\ Store.read 2 st' a' = Some (removeField [mkField "a" TNested []] 0)
       /\ forall a t0, Store.read 2 st a = Some t0 -> Store.read 2 st' a = Some t0.
Proof.
  split; [reflexivity|].
  apply (store_removeField_copy_on_write 2
           (Store.mkStore [Store.mkNode "a" TNested 1] [[0]; []]) 0 0
           [mkField "a" TNested []]).
  reflexivity.
Defined.

(** X18.  [updateField] on shared objects, inside the array, returns an array
    that reads as [updateField] gives on values, and every array of the
    store reads after the call as it read before: the merged node is a
    new object. *)
Theorem store_updateField_copy_on_write (d : nat) (st : Store.store)
    (fields : nat) (t : list Field) (i : nat) (f : Field)
    (u : Store.update) (p : PartialField) :
  Store.read (S d) st fields = Some t ->
  Store.read_update d st u = Some p ->
  t !! i = Some f ->
  exists st' a',
    Store.updateField st fields (Z.of_nat i) u = Some (st', a')
    /\ Store.read (S d) st' a' = updateField t (Z.of_nat i) p
    /\ forall a t0,
         Store.read (S d) st a = Some t0 -> Store.read (S d) st' a = Some t0.
Proof.
  intros Hread Hup Hi.
  destruct (store_updateField_refines d st fields t i f u p Hread Hup Hi)
    as (st' & a' & Hrun & Hext & Hnew & _).
  exists st', a'. split_and!; [done | done |].
  intros a t0. by apply read_extends.
Qed.

Lemma store_updateField_copy_on_write_witness :
  let st := Store.mkStore [Store.mkNode "a" TNested 1] [[0]; []] in
  let u := Store.mkUpdate (Some "b") None None in
  Store.read 2 st 0 = Some [mkField "a" TNested []]
  /\ exists st' a',
       Store.updateField st 0 (Z.of_nat 0) u = Some (st', a')
       /\ Store.read 2 st' a'
          = updateField [mkField "a" TNested []] (Z.of_nat 0)
              (mkPartial (Some "b") None None)
       /\ forall a t0, Store.read 2 st a = Some t0 -> Store.read 2 st' a = Some t0.
Proof.
  split; [reflexivity|].
  apply (store_updateField_copy_on_write 1
           (Store.mkStore [Store.mkNode "a" TNested 1] [[0]; []]) 0
           [mkField "a" TNested []] 0 (mkField "a" TNested [])
           (Store.mkUpdate (Some "b") None None)
           (mkPartial (Some "b") None None)); reflexivity.
Defined.

(** X19.  Every operation that hands [setFields] an array of fields
    hands it an array created by the call, never the array it was
    given, also when the tree it stands for is the same, as for
    [removeField] outside the array and [updateField] at a negative
    index, and when [updateField] appends a field at the index
    [fields.length]. *)
Theorem store_operations_return_new_array (st st' : Store.store)
    (fields a' : nat) (index : Z) (u : Store.update) (c : nat) :
  Store.addField st fields = Some (st', a')
  \/ Store.removeField st fields index = Some (st', a')
  \/ Store.updateField st fields index u = Some (st', a')
  \/ Store.updateChildren st fields index c = Some (st', a') ->
  Store.arrays st !! a' = None
  /\ a' <> fields
  /\ is_Some (Store.arrays st' !! a').
Proof.
  intros Hop.
  assert (Hfields : is_Some (Store.arrays st !! fields)).
  { destruct (Store.arrays st !! fields) eqn:E; [done|].
    unfold Store.addField, Store.removeField, Store.updateField,
      Store.updateChildren in Hop. rewrite E in Hop. naive_solver. }
  destruct Hfields as [refs Hrefs].
  assert (Hlen : fields < length (Store.arrays st)) by (by eapply lookup_lt_Some).
  assert (Hres : (a' = length (Store.arrays st)
                  \/ a' = S (length (Store.arrays st)))
                 /\ is_Some (Store.arrays st' !! a')).
  { unfold Store.addField, Store.removeField, Store.updateField,
      Store.updateChildren in Hop. rewrite Hrefs in Hop. simpl in Hop.
    destruct Hop as [H|[H|[H|H]]].
    - injection H as <- <-. split; [right; simpl; rewrite length_app; simpl; lia|].
      simpl. rewrite lookup_app_r by (rewrite !length_app; simpl; lia).
      rewrite !length_app. simpl.
      replace (length (Store.arrays st) + 1 - (length (Store.arrays st) + 1))
        with 0 by lia. by eexists.
    - injection H as <- <-. split; [by left|].
      simpl. rewrite lookup_app_r, Nat.sub_diag by done. by eexists.
    - destruct (in_range index refs) as [i|].
      + destruct (refs !! i) as [r|]; [|done]. simpl in H.
        destruct (Store.nodes st !! r) as [n|]; [|done]. simpl in H.
        injection H as <- <-. split; [by left|]. simpl.
        rewrite list_lookup_alter_eq, lookup_app_r, Nat.sub_diag by done.
        by eexists.
      + destruct (decide (index < 0 \/ 2 ^ 32 - 1 <= index)%Z).
        * injection H as <- <-. split; [by left|]. simpl.
          rewrite lookup_app_r, Nat.sub_diag by done. by eexists.
        * destruct (decide (index = Z.of_nat (length refs))); [|done].
          destruct (Store.ukey u), (Store.utype u), (Store.uchildren u);
            try done.
          injection H as <- <-. split; [by left|]. simpl.
          rewrite list_lookup_alter_eq, lookup_app_r, Nat.sub_diag by done.
          by eexists.
    - destruct (in_range index refs) as [i|]; [|done]. simpl in H.
      destruct (refs !! i) as [r|]; [|done]. simpl in H.
      destruct (Store.nodes st !! r) as [n|]; [|done]. simpl in H.
      injection H as <- <-. split; [by left|]. simpl.
      rewrite lookup_app_r, Nat.sub_diag by done. by eexists. }
  destruct Hres as [Ha' Hsome]. split_and!; [|lia|done].
  apply lookup_ge_None. lia.
Qed.

Lemma store_operations_return_new_array_witness :
  let st := Store.mkStore [Store.mkNode "a" TNested 1] [[0]; []] in
  Store.removeField st 0 5 = Some (Store.mkStore (Store.nodes st) [[0]; []; [0]], 2)
  /\ Store.arrays st !! 2 = None
  /\ 2 <> 0.
Proof.
  split; [reflexivity|].
  pose proof (store_operations_return_new_array
    (Store.mkStore [Store.mkNode "a" TNested 1] [[0]; []])
    (Store.mkStore [Store.mkNode "a" TNested 1] [[0]; []; [0]])
    0 2 5 (Store.mkUpdate None None None) 0) as H.
  destruct H as (H1 & H2 & _); [right; left; reflexivity|].
  split; [exact H1 | exact H2].
Defined.

(** X20.  Whenever [updateChildren] on shared objects returns, the array it
    was given and the array it returns hold the same references and
    read alike, to any depth: the caller's tree has changed with it. *)
Theorem store_updateChildren_shares_nodes (st st' : Store.store)
    (fields a' : nat) (index : Z) (c : nat) :
  Store.updateChildren st fields index c = Some (st', a') ->
  Store.arrays st' !! fields = Store.arrays st !! fields
  /\ Store.arrays st' !! a' = Store.arrays st !! fields
  /\ forall d, Store.read d st' fields = Store.read d st' a'.
Proof.
  intros Hrun.
  destruct (store_updateChildren_aliases _ _ _ _ _ _ Hrun) as [Ha Hread].
  assert (Hold : Store.arrays st' !! fields = Store.arrays st !! fields).
  { unfold Store.updateChildren in Hrun.
    destruct (Store.arrays st !! fields) as [refs|] eqn:Hrefs; [|done].
    simpl in Hrun. destruct (in_range index refs) as [i|]; [|done].
    simpl in Hrun. destruct (refs !! i) as [r|]; [|done]. simpl in Hrun.
    destruct (Store.nodes st !! r) as [n|]; [|done]. simpl in Hrun.
    injection Hrun as <- <-. simpl. by apply lookup_app_l_Some. }
  split_and!; [done | by rewrite Ha | by intros d; rewrite Hread].
Qed.

Lemma store_updateChildren_shares_nodes_witness :
  let st := Store.mkStore [Store.mkNode "a" TNested 1] [[0]; []; []] in
  exists st' a',
    Store.updateChildren st 0 0 2 = Some (st', a')
    /\ a' <> 0
    /\ forall d, Store.read d st' 0 = Store.read d st' a'.
Proof.
  eexists _, _. split; [reflexivity|]. split; [discriminate|].
  refine (proj2 (proj2 (store_updateChildren_shares_nodes
    (Store.mkStore [Store.mkNode "a" TNested 1] [[0]; []; []]) _ 0 _ 0 2 _))).
  reflexivity.
Defined.

(** X21.  Over a store in which the tree read from the array meets no object
    twice and the new children do not contain the node they are given
    to, [updateChildren] inside the array returns an array that reads as
    the tree with the children of that node replaced, its key, its type
    and the other nodes as they were. *)
Theorem store_updateChildren_result (d : nat) (st : Store.store)
    (fields : nat) (refs : list nat) (t : list Field) (i r : nat) (f : Field)
    (c : nat) (tc : list Field) :
  Store.read (S d) st fields = Some t ->
  Store.read d st c = Some tc ->
  Store.arrays st !! fields = Some refs ->
  refs !! i = Some r ->
  t !! i = Some f ->
  NoDup (Store.visited (S d) st fields) ->
  r ∉ Store.visited d st c ->
  exists st' a',
    Store.updateChildren st fields (Z.of_nat i) c = Some (st', a')
    /\ Store.read (S d) st' a'
       = Some (<[i := mkField (key f) (type f) tc]> t).
Proof.
  intros Hread Hc Hrefs Hr Hi Hnd Hsep.
  destruct (store_updateChildren_refines d st fields refs t i r f c tc
              Hread Hc Hrefs Hr Hi Hnd Hsep) as (st' & a' & Hrun & Hnew & _).
  exists st', a'. split; [done|]. by rewrite Hnew, (updateChildren_Some t i f).
Qed.

Lemma store_updateChildren_result_witness :
  let st := Store.mkStore [Store.mkNode "a" TNested 1; Store.mkNode "x" TNumber 3]
              [[0]; []; [1]; []] in
  Store.read 3 st 0 = Some [mkField "a" TNested []]
  /\ Store.read 2 st 2 = Some [mkField "x" TNumber []]
  /\ exists st' a',
       Store.updateChildren st 0 (Z.of_nat 0) 2 = Some (st', a')
       /\ Store.read 3 st' a'
          = Some (<[0 := mkField "a" TNested [mkField "x" TNumber []]]>
                    [mkField "a" TNested []]).
Proof.
  split; [reflexivity|]. split; [reflexivity|].
  apply (store_updateChildren_result 2
    (Store.mkStore [Store.mkNode "a" TNested 1; Store.mkNode "x" TNumber 3]
       [[0]; []; [1]; []])
    0 [0] [mkField "a" TNested []] 0 0 (mkField "a" TNested []) 2
    [mkField "x" TNumber []]); try reflexivity.
  - simpl. apply NoDup_singleton.
  - simpl. rewrite list_elem_of_singleton. discriminate.
Defined.

(** ** Sessions *)

Lemma run_events_app evs1 evs2 t :
  run_events (evs1 ++ evs2) t
  = match run_events evs1 t with
    | SetState t' => run_events evs2 t'
    | o => o
    end.
Proof.
  revert t. induction evs1 as [|[p a] evs1 IH]; intros t; [done|].
  cbn [app run_events]. by destruct (JsonSchemaBuilder_event p a t).
Qed.

Lemma build_field_unfold i f :
  build_field i f
  = [([], ClickAdd); ([], ChangeKey i (key f)); ([], ChangeType i TNested)]
    ++ map (under i) (build_from 0 (children f))
    ++ [([], ChangeType i (type f))].
Proof.
  destruct f as [k ty ch]. reflexivity.
Qed.

Lemma run_events_under i evs t f c' :
  t !! i = Some f ->
  type f = TNested ->
  run_events evs (children f) = SetState c' ->
  run_events (map (under i) evs) t
  = SetState (<[i := mkField (key f) TNested c']> t).
Proof.
  revert t f. induction evs as [|[p a] evs IH]; intros t f Hi Hty Hrun.
  - cbn [run_events map] in *. injection Hrun as <-. f_equal. symmetry.
    apply list_insert_id. rewrite Hi. f_equal. destruct f; simpl in *; by subst.
  - cbn [run_events map under fst snd] in *.
    destruct (JsonSchemaBuilder_event p a (children f)) as [| |c1] eqn:Hc1;
      [done | done |].
    rewrite (proj2 (nested_event_iff i p a t
      (<[i := mkField (key f) TNested c1]> t))) by (exists f, c1; done).
    rewrite (IH _ (mkField (key f) TNested c1)); [| |done|done].
    + by rewrite list_insert_insert_eq.
    + apply list_lookup_insert_eq. by eapply lookup_lt_Some.
Qed.

Lemma updateField_last pre x p :
  updateField (pre ++ [x]) (Z.of_nat (length pre)) p = Some (pre ++ [merge x p]).
Proof.
  rewrite (updateField_Some _ _ x) by (by apply list_lookup_middle).
  f_equal. rewrite insert_app_r_alt, Nat.sub_diag by done. done.
Qed.

Lemma change_last a pre x p :
  act a (pre ++ [x])
    = Some (updateField (pre ++ [x]) (Z.of_nat (length pre)) p) ->
  JsonSchemaBuilder_event [] a (pre ++ [x]) = SetState (pre ++ [merge x p]).
Proof.
  intros Hact. unfold JsonSchemaBuilder_event. cbn [FieldEditor_event].
  by rewrite Hact, updateField_last.
Qed.

Lemma act_change_last pre (x : Field) :
  length pre < length (pre ++ [x]).
Proof. rewrite length_app. simpl. lia. Qed.

Lemma run_events_cons p a evs t t' :
  JsonSchemaBuilder_event p a t = SetState t' ->
  run_events ((p, a) :: evs) t = run_events evs t'.
Proof. intros H. cbn [run_events]. by rewrite H. Qed.

Lemma run_events_app_SetState evs1 evs2 t t' :
  run_events evs1 t = SetState t' ->
  run_events (evs1 ++ evs2) t = run_events evs2 t'.
Proof. intros H. by rewrite run_events_app, H. Qed.

Lemma change_key_last pre x k :
  JsonSchemaBuilder_event [] (ChangeKey (length pre) k) (pre ++ [x])
  = SetState (pre ++ [mkField (strip_newlines k) (type x) (children x)]).
Proof.
  rewrite (change_last _ pre x (mkPartial (Some (strip_newlines k)) None None));
    [done|].
  cbn [act]. by rewrite decide_True by apply act_change_last.
Qed.

Lemma change_type_last pre x ty :
  JsonSchemaBuilder_event [] (ChangeType (length pre) ty) (pre ++ [x])
  = SetState (pre ++ [mkField (key x) ty (children x)]).
Proof.
  rewrite (change_last _ pre x (mkPartial None (Some ty) None)); [done|].
  cbn [act]. by rewrite decide_True by apply act_change_last.
Qed.

Lemma typeable_tree_Forall t :
  typeable_tree t = true <-> Forall (fun f => typeable f = true) t.
Proof.
  unfold typeable_tree. rewrite forallb_forall, Forall_forall.
  split; intros H f Hf; apply H; by apply list_elem_of_In.
Qed.

Lemma typeable_unfold f :
  typeable f = true
  <-> strip_newlines (key f) = key f /\ typeable_tree (children f) = true.
Proof.
  destruct f as [k ty ch]. cbn [typeable key children].
  rewrite andb_true_iff, bool_decide_eq_true. done.
Qed.

Lemma strip_newlines_length s :
  String.length (strip_newlines s) <= String.length s.
Proof.
  induction s as [|c s IH]; [done|]. cbn [strip_newlines].
  case_decide; cbn [String.length]; lia.
Qed.

(** The texts the name field leaves as they are: those without a line
    feed and without a carriage return. *)
Lemma strip_newlines_fixed s :
  strip_newlines s = s
  <-> Forall (fun c => c <> "010"%char /\ c <> "013"%char) (list_ascii_of_string s).
Proof.
  induction s as [|c s IH]; [by split; [constructor|]|].
  cbn [strip_newlines list_ascii_of_string]. rewrite Forall_cons. case_decide as Hc.
  - split; [|intros [[? ?] _]; tauto].
    intros Heq. pose proof (strip_newlines_length s) as Hlen.
    rewrite Heq in Hlen. cbn [String.length] in Hlen. lia.
  - rewrite <- IH. split.
    + intros [= Heq]. split; [tauto | done].
    + intros [_ ->]. done.
Qed.

Lemma strip_newlines_idemp s : strip_newlines (strip_newlines s) = strip_newlines s.
Proof.
  induction s as [|c s IH]; [done|]. cbn [strip_newlines].
  case_decide as Hc; [done|]. cbn [strip_newlines].
  by rewrite decide_False, IH.
Qed.

Lemma build_from_run t :
  Forall (fun f => typeable f = true -> forall pre,
            run_events (build_field (length pre) f) pre = SetState (pre ++ [f])) t ->
  typeable_tree t = true ->
  forall pre, run_events (build_from (length pre) t) pre = SetState (pre ++ t).
Proof.
  intros Hall Hty. apply typeable_tree_Forall in Hty.
  induction Hall as [|f t Hf _ IH]; intros pre.
  - cbn [build_from run_events]. by rewrite app_nil_r.
  - inversion_clear Hty as [|? ? Htf Htt].
    cbn [build_from]. rewrite run_events_app, Hf by done.
    replace (S (length pre)) with (length (pre ++ [f]))
      by (rewrite length_app; simpl; lia).
    by rewrite IH, <- app_assoc.
Qed.

Lemma build_field_run f :
  typeable f = true ->
  forall pre, run_events (build_field (length pre) f) pre = SetState (pre ++ [f]).
Proof.
  induction f as [k ty ch IH] using Field_tree_ind.
  intros [Hk Hch]%typeable_unfold pre. cbn [key children] in Hk, Hch.
  rewrite build_field_unfold. cbn [key type children app].
  rewrite (run_events_cons _ _ _ _ (pre ++ [defaultField])) by reflexivity.
  rewrite (run_events_cons _ _ _ _ (pre ++ [mkField k TString []]))
    by (rewrite <- Hk at 2; apply change_key_last).
  rewrite (run_events_cons _ _ _ _ (pre ++ [mkField k TNested []]))
    by apply change_type_last.
  rewrite (run_events_app_SetState _ _ _ (pre ++ [mkField k TNested ch])).
  - rewrite (run_events_cons _ _ _ _ (pre ++ [mkField k ty ch]))
      by apply change_type_last.
    reflexivity.
  - rewrite (run_events_under (length pre) _ _ (mkField k TNested []) ch);
      [| by apply list_lookup_middle | done
       | apply (build_from_run ch IH Hch [])].
    cbn [key]. by rewrite insert_app_r_alt, Nat.sub_diag by done.
Qed.

Lemma build_run t :
  typeable_tree t = true -> run_events (build t) [] = SetState t.
Proof.
  intros Hty.
  apply (build_from_run t (proj2 (Forall_forall _ t)
           (fun f _ => build_field_run f)) Hty []).
Qed.

Lemma Forall_filter_from {A} (P : A -> Prop) j index (l : list A) :
  Forall P l -> Forall P (filter_from j index l).
Proof.
  intros H. revert j. induction H as [|x l Hx _ IH]; intros j; simpl.
  - constructor.
  - case_decide; [constructor|]; auto.
Qed.

Lemma typeable_merge f k ty :
  typeable f = true ->
  typeable (merge f (mkPartial (Some (strip_newlines k)) None None)) = true
  /\ typeable (merge f (mkPartial None (Some ty) None)) = true.
Proof.
  rewrite !typeable_unfold. intros [Hk Hch].
  cbn [merge key children pkey ptype pchildren default from_option id].
  split; [split; [apply strip_newlines_idemp | done] | done].
Qed.

Lemma event_typeable path a t t' :
  JsonSchemaBuilder_event path a t = SetState t' ->
  typeable_tree t = true -> typeable_tree t' = true.
Proof.
  revert t t'. induction path as [|i rest IH]; intros t t' Hev Hty.
  - unfold JsonSchemaBuilder_event in Hev. cbn [FieldEditor_event] in Hev.
    apply typeable_tree_Forall in Hty. apply typeable_tree_Forall.
    destruct a as [i text|i ty|i|]; cbn [act] in Hev.
    + case_decide as Hi; [|done].
      destruct (lookup_lt_is_Some_2 t i Hi) as [f Hf].
      rewrite (updateField_Some _ _ f) in Hev by done. injection Hev as <-.
      apply Forall_insert; [done|].
      apply (typeable_merge f text TString).
      apply (proj1 (Forall_lookup _ t) Hty i f Hf).
    + case_decide as Hi; [|done].
      destruct (lookup_lt_is_Some_2 t i Hi) as [f Hf].
      rewrite (updateField_Some _ _ f) in Hev by done. injection Hev as <-.
      apply Forall_insert; [done|].
      apply (typeable_merge f "" ty).
      apply (proj1 (Forall_lookup _ t) Hty i f Hf).
    + case_decide as Hi; [|done]. injection Hev as <-.
      by apply Forall_filter_from.
    + injection Hev as <-. apply Forall_app. split; [done|].
      by repeat constructor.
  - apply nested_event_iff in Hev as (f & c & Hi & Hnested & Hc & ->).
    apply typeable_tree_Forall in Hty. apply typeable_tree_Forall.
    pose proof (proj1 (Forall_lookup _ t) Hty i f Hi) as [Hk Hch]%typeable_unfold.
    apply Forall_insert; [done|]. apply typeable_unfold.
    cbn [key children]. split; [done|]. by apply (IH (children f)).
Qed.

Lemma run_events_typeable evs t t' :
  run_events evs t = SetState t' ->
  typeable_tree t = true -> typeable_tree t' = true.
Proof.
  revert t. induction evs as [|[p a] evs IH]; intros t Hrun Hty.
  - cbn [run_events] in Hrun. by injection Hrun as <-.
  - cbn [run_events] in Hrun.
    destruct (JsonSchemaBuilder_event p a t) as [| |t1] eqn:Hev; [done|done|].
    apply (IH t1); [done|]. by apply (event_typeable p a t).
Qed.

(** X15.  The trees that can be set up from the empty state of a new
    session with the controls of the editor are exactly the trees whose
    keys, at every depth, hold no line feed and no carriage return: the
    name field strips them from what is entered, and every other
    tree, the children of fields that are not [Nested] included, is
    reached by adding, naming and typing its fields one by one. *)
Theorem trees_built_by_controls (t : list Field) :
  (exists evs, run_events evs [] = SetState t) <-> typeable_tree t = true.
Proof.
  split.
  - intros [evs Hrun]. by apply (run_events_typeable evs [] t).
  - intros Hty. exists (build t). by apply build_run.
Qed.
